(** * kbase dashboard: the revision resolver and the kind aggregator

    A shallow embedding of [main.go]: the handler of [GET /] lists the
    indices of the cluster, keeps those named [kb-rev<integer>], sorts them
    by revision (newest first), and reduces a terms aggregation on [kind]
    into a table of counts.  The two middlewares registered with [e.Use]
    (the access-token gate and the template loader) are embedded as well.

    Go values are modelled as follows: a [string] is a sequence of bytes
    (Rocq's [string] of [ascii]); [int], [int64] and [uint64] are [Z] with
    the wrap-around of the machine type written out; a function returning
    [(T, error)] returns a pair whose second component is an [option];
    a slice is a [list]. *)

From Stdlib Require Import ZArith List String Ascii Bool Lia.
From Stdlib Require Import Sorted Permutation.
Import ListNotations.

Local Open Scope string_scope.
Local Open Scope Z_scope.

(** ** Package [strings] *)

Module strings.

(** [func HasPrefix(s, prefix string) bool]:
    [len(s) >= len(prefix) && s[0:len(prefix)] == prefix]. *)
Definition HasPrefix (s prefix : string) : bool :=
  (String.length prefix <=? String.length s)%nat
  && String.eqb (substring 0 (String.length prefix) s) prefix.

(** [func TrimPrefix(s, prefix string) string]:
    [s[len(prefix):]] when [HasPrefix(s, prefix)], else [s]. *)
Definition TrimPrefix (s prefix : string) : string :=
  if HasPrefix s prefix
  then substring (String.length prefix)
                 (String.length s - String.length prefix) s
  else s.

End strings.

(** ** Package [strconv]

    [Atoi(s)] is [ParseInt(s, 10, 0)] with a fast path for short inputs.
    The model below is the instance the handler runs: base 10 and bit size
    0, that is [IntSize], on a 64-bit platform. *)

Module strconv.

Inductive NumError : Type := ErrSyntax | ErrRange.

Definition intSize : Z := 64.
Definition maxUint64 : Z := 2 ^ 64 - 1.

(** The value of a byte of the string. *)
Definition byte (c : ascii) : Z := Z.of_N (N_of_ascii c).

(** Conversions to the machine types. *)
Definition to_byte (z : Z) : Z := z mod 256.
Definition to_uint64 (z : Z) : Z := z mod 2 ^ 64.
Definition to_int64 (z : Z) : Z := (z + 2 ^ 63) mod 2 ^ 64 - 2 ^ 63.
Definition to_int (z : Z) : Z :=
  (z + 2 ^ (intSize - 1)) mod 2 ^ intSize - 2 ^ (intSize - 1).

(** [func lower(c byte) byte { return c | ('x' - 'X') }] *)
Definition lower (c : Z) : Z := Z.lor c 32.

(** The digit a byte stands for in [ParseUint], if any: the [switch] on
    [c] with [base0 = false]. *)
Definition digit_of (c : Z) : option Z :=
  if (48 <=? c) && (c <=? 57) then Some (to_byte (c - 48))
  else if (97 <=? lower c) && (lower c <=? 122)
       then Some (to_byte (lower c - 97 + 10))
       else None.

Definition base : Z := 10.
(** [cutoff = maxUint64/10 + 1], the least [n] with [n*10 > maxUint64]. *)
Definition cutoff : Z := maxUint64 / 10 + 1.
(** [maxVal = 1<<bitSize - 1] with [bitSize = IntSize]. *)
Definition maxVal : Z := to_uint64 (Z.shiftl 1 intSize - 1).

(** The loop of [ParseUint] over the bytes of [s], from the partial
    value [n]. *)
Fixpoint ParseUint_loop (n : Z) (s : string) : Z * option NumError :=
  match s with
  | EmptyString => (n, None)
  | String ch rest =>
      match digit_of (byte ch) with
      | None => (0, Some ErrSyntax)
      | Some d =>
          if d >=? base then (0, Some ErrSyntax)
          else if n >=? cutoff then (maxVal, Some ErrRange)
          else
            let n' := to_uint64 (n * base) in
            let n1 := to_uint64 (n' + d) in
            if (n1 <? n') || (n1 >? maxVal) then (maxVal, Some ErrRange)
            else ParseUint_loop n1 rest
      end
  end.

(** [func ParseUint(s string, base int, bitSize int) (uint64, error)]
    at [base = 10], [bitSize = 0]. *)
Definition ParseUint (s : string) : Z * option NumError :=
  match s with
  | EmptyString => (0, Some ErrSyntax)
  | _ => ParseUint_loop 0 s
  end.

(** [func ParseInt(s string, base int, bitSize int) (int64, error)]
    at [base = 10], [bitSize = 0]. *)
Definition ParseInt (s : string) : Z * option NumError :=
  match s with
  | EmptyString => (0, Some ErrSyntax)
  | String c0 rest =>
      let neg := Ascii.eqb c0 "-" in
      let s1 := if Ascii.eqb c0 "+" then rest
                else if Ascii.eqb c0 "-" then rest else s in
      let '(un, err) := ParseUint s1 in
      match err with
      | Some ErrSyntax => (0, err)
      | _ =>
          let cut := to_uint64 (Z.shiftl 1 (intSize - 1)) in
          if negb neg && (un >=? cut) then
            (to_int64 (cut - 1), Some ErrRange)
          else if neg && (un >? cut) then
            (to_int64 (- to_int64 cut), Some ErrRange)
          else
            let n := to_int64 un in
            (if neg then to_int64 (- n) else n, None)
      end
  end.

(** The loop of the fast path of [Atoi]: [ch -= '0'] on a byte, then
    [n = n*10 + int(ch)] on an [int]. *)
Fixpoint Atoi_loop (n : Z) (s : string) : option Z :=
  match s with
  | EmptyString => Some n
  | String ch rest =>
      let d := to_byte (byte ch - 48) in
      if d >? 9 then None
      else Atoi_loop (to_int (n * 10 + d)) rest
  end.

(** [func Atoi(s string) (int, error)]. *)
Definition Atoi (s : string) : Z * option NumError :=
  let sLen := Z.of_nat (String.length s) in
  if (intSize =? 32) && ((0 <? sLen) && (sLen <? 10))
     || (intSize =? 64) && ((0 <? sLen) && (sLen <? 19))
  then
    match s with
    | EmptyString => (0, Some ErrSyntax)
    | String c0 rest =>
        let signed := Ascii.eqb c0 "-" || Ascii.eqb c0 "+" in
        let s1 := if signed then rest else s in
        if signed && (String.length s1 <? 1)%nat then (0, Some ErrSyntax)
        else
          match Atoi_loop 0 s1 with
          | None => (0, Some ErrSyntax)
          | Some n => (if Ascii.eqb c0 "-" then to_int (- n) else n, None)
          end
    end
  else
    let '(i64, err) := ParseInt s in (to_int i64, err).

End strconv.

(** ** What a base-10 signed integer is

    Independent of [strconv]: a numeral is an optional sign followed by at
    least one decimal digit, and denotes the integer its digits spell. *)

Definition is_digit (c : ascii) : bool :=
  (48 <=? strconv.byte c) && (strconv.byte c <=? 57).

Fixpoint all_digits (s : string) : bool :=
  match s with
  | EmptyString => true
  | String c rest => is_digit c && all_digits rest
  end.

(** The value of the digits [s] read after the digits of value [acc]. *)
Fixpoint decimal_from (acc : Z) (s : string) : Z :=
  match s with
  | EmptyString => acc
  | String c rest => decimal_from (10 * acc + (strconv.byte c - 48)) rest
  end.

Definition decimal_value (s : string) : Z := decimal_from 0 s.

Inductive SignedDecimal : string -> Z -> Prop :=
| SD_unsigned ds :
    ds <> "" -> all_digits ds = true -> SignedDecimal ds (decimal_value ds)
| SD_plus ds :
    ds <> "" -> all_digits ds = true ->
    SignedDecimal (String "+" ds) (decimal_value ds)
| SD_minus ds :
    ds <> "" -> all_digits ds = true ->
    SignedDecimal (String "-" ds) (- decimal_value ds).

(** The range of Go's [int] on a 64-bit platform. *)
Definition minInt : Z := - 2 ^ 63.
Definition maxInt : Z := 2 ^ 63 - 1.
Definition fits_int (n : Z) : Prop := minInt <= n <= maxInt.
Definition fits_intb (n : Z) : bool := (minInt <=? n) && (n <=? maxInt).

(** The numeral read by a function: the value of [s] when it is a signed
    decimal numeral. *)
Definition unsigned_value (ds : string) : option Z :=
  if all_digits ds && negb (String.eqb ds "")
  then Some (decimal_value ds) else None.

Definition numeral_value (s : string) : option Z :=
  match s with
  | EmptyString => None
  | String c0 rest =>
      if Ascii.eqb c0 "+" then unsigned_value rest
      else if Ascii.eqb c0 "-" then option_map Z.opp (unsigned_value rest)
      else unsigned_value s
  end.


(** ** Package [sort]

    [sort.Slice(x, less)] permutes the slice [x] by swaps until it is sorted
    for [less]; the library documents that the sort is not stable and that
    [less] must be a strict weak ordering.  The handler's closure reads
    [less(i, j)] off the elements [x[i]] and [x[j]], so the model takes
    [less] on elements.  The algorithm behind [Slice] changed between Go
    releases; the development holds for every implementation that meets
    the documented contract, which the class [Sorter] records. *)

Module sort.

Record StrictWeakOrder {A : Type} (less : A -> A -> bool) : Prop := {
  swo_irrefl : forall a, less a a = false;
  swo_trans : forall a b c,
    less a b = true -> less b c = true -> less a c = true;
  swo_negtrans : forall a b c,
    less a b = false -> less b c = false -> less a c = false
}.

(** [l] is sorted for [less]: no element is less than its predecessor. *)
Definition IsSorted {A : Type} (less : A -> A -> bool) (l : list A) : Prop :=
  Sorted (fun a b => less b a = false) l.

Class Sorter : Type := {
  Slice : forall {A : Type}, (A -> A -> bool) -> list A -> list A;
  Slice_Permutation :
    forall (A : Type) (less : A -> A -> bool) (x : list A),
      Permutation x (Slice less x);
  Slice_IsSorted :
    forall (A : Type) (less : A -> A -> bool) (x : list A),
      StrictWeakOrder less -> IsSorted less (Slice less x)
}.

(** [insertionSort_func], the algorithm [Slice] runs on short slices:
<<
    for i := a + 1; i < b; i++ {
      for j := i; j > a && data.Less(j, j-1); j-- { data.Swap(j, j-1) }
    }
>>
    [sink less x before] is the inner loop: [before] holds [x[a:i]] from
    its last element down to its first, and [x] moves down past every
    element it is less than. *)
Fixpoint sink {A : Type} (less : A -> A -> bool) (x : A) (before : list A)
  : list A :=
  match before with
  | [] => [x]
  | y :: before' =>
      if less x y then y :: sink less x before' else x :: before
  end.

Fixpoint insertionSort_from {A : Type} (less : A -> A -> bool)
  (before rest : list A) : list A :=
  match rest with
  | [] => rev before
  | x :: rest' => insertionSort_from less (sink less x before) rest'
  end.

Definition insertionSort {A : Type} (less : A -> A -> bool) (x : list A)
  : list A :=
  insertionSort_from less [] x.

End sort.

(** ** Package [fmt]: the verb [%v]

    A bucket key is an [interface{}] decoded from JSON: a string, a number
    (a [float64]), a boolean or [null].  How [%v] prints a [float64] is
    [strconv.FormatFloat(f, 'g', -1, 64)], which is taken as given. *)

Module fmt.

Class Floats : Type := {
  float64 : Type;
  FormatFloat_g : float64 -> string
}.

Inductive any `{Floats} : Type :=
| AString (s : string)
| AFloat64 (f : float64)
| ABool (b : bool)
| ANil.

(** [fmt.Sprintf("%v", v)]. *)
Definition Sprintf_v `{Floats} (v : any) : string :=
  match v with
  | AString s => s
  | AFloat64 f => FormatFloat_g f
  | ABool true => "true"
  | ABool false => "false"
  | ANil => "<nil>"
  end.

(** Keys without numbers: the instance the closed examples run on. *)
Definition NoFloats : Floats :=
  {| float64 := Empty_set; FormatFloat_g := fun f => match f with end |}.

End fmt.

(** ** Package [elastic]: the parts of the client the handler reads *)

Module elastic.

(** A row of [CatIndicesResponse]; the handler reads [Index] only. *)
Record CatIndicesResponseRow : Type := {
  Health : string;
  Status : string;
  Index : string;
  UUID : string;
  DocsCount : Z
}.

Definition CatIndicesResponse : Type := list CatIndicesResponseRow.

Record AggregationBucketKeyItem `{fmt.Floats} : Type := {
  Key : fmt.any;
  KeyAsString : option string;
  DocCount : Z
}.

Record AggregationBucketKeyItems `{fmt.Floats} : Type := {
  DocCountErrorUpperBound : Z;
  SumOfOtherDocCount : Z;
  Buckets : list AggregationBucketKeyItem
}.

(** [Aggregations] maps the name of an aggregation to its result. *)
Definition Aggregations `{fmt.Floats} : Type :=
  list (string * AggregationBucketKeyItems).

(** [func (a Aggregations) Terms(name string)]: a pointer to the items
    of the aggregation [name], [nil] when [name] is absent. *)
Fixpoint Terms `{fmt.Floats} (a : Aggregations) (name : string)
  : option AggregationBucketKeyItems :=
  match a with
  | [] => None
  | (k, items) :: a' => if String.eqb k name then Some items else Terms a' name
  end.

Record SearchResult `{fmt.Floats} : Type := {
  TookInMillis : Z;
  SearchAggregations : Aggregations
}.

End elastic.

(** ** [main.go] *)

(** [const indexPrefix = "kb-rev"] *)
Definition indexPrefix : string := "kb-rev".

(** The view model of the handler: [DataIndex], [DataKind] and [Data]. *)
Record DataIndex : Type := { Index : string; Rev : Z }.
Record DataKind : Type := { Kind : string; Count : Z }.
Record Data : Type := { Kinds : list DataKind; Indices : list DataIndex }.

(** A Go [error], by its message.  A pointer that may be [nil] is an
    [option]. *)
Definition error : Type := string.

(** The parsed templates of [views/*.gohtml], by the pattern they came
    from. *)
Inductive Template : Type := Templates (pattern : string).

(** The request as the middlewares and the handler see it: [c.Path()] is
    the path of the route the router matched, [c.QueryParam(name)] the
    first value of the query parameter [name], or the empty string. *)
Record Context : Type := {
  Path : string;
  QueryParams : list (string * string)
}.

Fixpoint QueryParam_of (q : list (string * string)) (name : string) : string :=
  match q with
  | [] => ""
  | (k, v) :: q' => if String.eqb k name then v else QueryParam_of q' name
  end.

Definition QueryParam (c : Context) (name : string) : string :=
  QueryParam_of (QueryParams c) name.

(** What a request does to the outside, in order. *)
Inductive event : Type :=
| CallParseGlob (pattern : string)
| CallCatIndices
| CallSearch (indices : string) (size : Z) (aggregation field : string)
             (terms : Z)
| CallRender (code : Z) (name : string) (data : Data)
| CallString (code : Z) (body : string).

(** The state a request runs in: [renderer.templates], shared by all
    requests, and the calls made so far. *)
Record World : Type := {
  templates : option Template;
  trace : list event
}.

(** A computation ends with a value or panics. *)
Inductive outcome (A : Type) : Type :=
| Done (a : A)
| Panic (e : error).
Arguments Done {A} a.
Arguments Panic {A} e.

Definition M (A : Type) : Type := World -> outcome A * World.

Definition ret {A : Type} (a : A) : M A := fun w => (Done a, w).

Definition bind {A B : Type} (m : M A) (k : A -> M B) : M B :=
  fun w =>
    match m w with
    | (Done a, w') => k a w'
    | (Panic e, w') => (Panic e, w')
    end.

Notation "x <- m ;; k" := (bind m (fun x => k))
  (at level 61, m at next level, right associativity).
Notation "m ;;; k" := (bind m (fun _ => k))
  (at level 61, right associativity).

Definition panic {A : Type} (e : error) : M A := fun w => (Panic e, w).

Definition emit (ev : event) : M unit :=
  fun w => (Done tt, {| templates := templates w; trace := trace w ++ [ev] |}).

Definition get_templates : M (option Template) :=
  fun w => (Done (templates w), w).

Definition set_templates (t : option Template) : M unit :=
  fun w => (Done tt, {| templates := t; trace := trace w |}).

(** The world [w] after the calls [evs]. *)
Definition called (w : World) (evs : list event) : World :=
  {| templates := templates w; trace := trace w ++ evs |}.

(** [echo.HandlerFunc]: [func(c echo.Context) error]. *)
Definition HandlerFunc : Type := Context -> M (option error).

Section Main.

Context `{sorter : sort.Sorter} `{floats : fmt.Floats}.

(** What [main] reads from the environment, and what the search engine,
    the file system and the template engine answer during the request. *)
Record Env : Type := {
  envAccessToken : string;
  envDebug : bool;
  CatIndices_Do : elastic.CatIndicesResponse * option error;
  Search_Do : option elastic.SearchResult * option error;
  ParseGlob : option Template * option error;
  ExecuteTemplate : Template -> string -> Data -> option error
}.

Variable env : Env.

(** [c.String(code, s)] *)
Definition c_String (code : Z) (s : string) : M (option error) :=
  emit (CallString code s) ;;; ret None.

(** [func (r *Renderer) Render(w, name, data, c) error] *)
Definition Renderer_Render (name : string) (data : Data) : M (option error) :=
  t <- get_templates ;;
  match t with
  | None => ret (Some "renderer not initialized")
  | Some t => ret (ExecuteTemplate env t name data)
  end.

(** [c.Render(code, name, data)], which runs [e.Renderer]. *)
Definition c_Render (code : Z) (name : string) (data : Data)
  : M (option error) :=
  emit (CallRender code name data) ;;; Renderer_Render name data.

(** [template.Must(template.ParseGlob(pattern))] *)
Definition template_Must_ParseGlob (pattern : string)
  : M (option Template) :=
  emit (CallParseGlob pattern) ;;;
  match ParseGlob env with
  | (t, None) => ret t
  | (_, Some e) => panic e
  end.

(** The first middleware of [main]: the access-token gate. *)
Definition accessTokenMiddleware (next : HandlerFunc) : HandlerFunc :=
  fun c =>
    if negb (String.eqb (Path c) "/")
       && negb (String.eqb (QueryParam c "access_token") (envAccessToken env))
    then c_String 403 "invalid access_token"
    else next c.

(** The second middleware of [main]: the template loader. *)
Definition templatesMiddleware (next : HandlerFunc) : HandlerFunc :=
  fun c =>
    t <- get_templates ;;
    (if match t with None => true | Some _ => false end || envDebug env
     then t' <- template_Must_ParseGlob "views/*.gohtml" ;;
          set_templates t'
     else ret tt) ;;;
    next c.

(** *** The revision resolver (lines 123-142) *)

(** The [for _, item := range res] loop, appending to [data.Indices]. *)
Fixpoint collect (res : elastic.CatIndicesResponse)
  (indices : list DataIndex) : list DataIndex :=
  match res with
  | [] => indices
  | item :: res' =>
      if negb (strings.HasPrefix (elastic.Index item) indexPrefix)
      then collect res' indices
      else
        match strconv.Atoi
                (strings.TrimPrefix (elastic.Index item) indexPrefix) with
        | (rev, None) =>
            collect res'
              (indices ++ [{| Index := elastic.Index item; Rev := rev |}])
        | (_, Some _) => collect res' indices
        end
  end.

(** The closure given to [sort.Slice]:
    [data.Indices[i].Rev > data.Indices[j].Rev]. *)
Definition less (a b : DataIndex) : bool := Rev a >? Rev b.

Definition resolve (res : elastic.CatIndicesResponse) : list DataIndex :=
  let indices := collect res [] in
  let indices := sort.Slice less indices in
  if (List.length indices =? 0)%nat
  then indices ++ [{| Index := indexPrefix ++ "1"; Rev := 1 |}]
  else indices.

(** *** The kind aggregator (lines 152-159) *)

(** The [for _, bucket := range items.Buckets] loop, appending to
    [data.Kinds]. *)
Fixpoint aggregate_buckets (buckets : list elastic.AggregationBucketKeyItem)
  (kinds : list DataKind) : list DataKind :=
  match buckets with
  | [] => kinds
  | bucket :: buckets' =>
      aggregate_buckets buckets'
        (kinds ++ [{| Kind := fmt.Sprintf_v (elastic.Key bucket);
                      Count := elastic.DocCount bucket |}])
  end.

(** [if items, _ := ...Terms("kinds"); items != nil { ... }] *)
Definition aggregate (items : option elastic.AggregationBucketKeyItems)
  : list DataKind :=
  match items with
  | Some items => aggregate_buckets (elastic.Buckets items) []
  | None => []
  end.

(** *** The handler of [GET /] *)

Definition client_CatIndices_Do
  : M (elastic.CatIndicesResponse * option error) :=
  emit CallCatIndices ;;; ret (CatIndices_Do env).

Definition client_Search_Do
  : M (option elastic.SearchResult * option error) :=
  emit (CallSearch "kb-*" 0 "kinds" "kind" 9999) ;;; ret (Search_Do env).

Definition dashboard : HandlerFunc :=
  fun c =>
    r <- client_CatIndices_Do ;;
    match r with
    | (_, Some err) => ret (Some err)
    | (res, None) =>
        let indices := resolve res in
        r <- client_Search_Do ;;
        match r with
        | (_, Some err) => ret (Some err)
        | (None, None) => panic "nil pointer dereference"
        | (Some res, None) =>
            let kinds :=
              aggregate
                (elastic.Terms (elastic.SearchAggregations res) "kinds") in
            c_Render 200 "index" {| Kinds := kinds; Indices := indices |}
        end
    end.

(** A request for a route, through the middlewares in the order of
    [e.Use].  ([middleware.Recover], registered before them, only acts on
    a panic and is left to the caller.) *)
Definition serve (route : HandlerFunc) : HandlerFunc :=
  accessTokenMiddleware (templatesMiddleware route).

End Main.

(** *** The resolver, one name at a time

    The entry the loop of the resolver appends for the index [name], if
    any, and the entries it appends for a whole response. *)

Definition entry_of (name : string) : option DataIndex :=
  if strings.HasPrefix name indexPrefix
  then match strconv.Atoi (strings.TrimPrefix name indexPrefix) with
       | (rev, None) => Some {| Index := name; Rev := rev |}
       | (_, Some _) => None
       end
  else None.

Definition entries (res : elastic.CatIndicesResponse) : list DataIndex :=
  flat_map (fun item => match entry_of (elastic.Index item) with
                        | Some e => [e]
                        | None => []
                        end) res.

(** A row of the cat-indices response for the index [name], for the
    examples. *)
Definition row (name : string) : elastic.CatIndicesResponseRow :=
  {| elastic.Health := "green"; elastic.Status := "open";
     elastic.Index := name; elastic.UUID := ""; elastic.DocsCount := 0 |}.

(** The bucket of the terms aggregation for the string key [key]. *)
Definition bucket (key : string) (count : Z)
  : @elastic.AggregationBucketKeyItem fmt.NoFloats :=
  {| elastic.Key := fmt.AString key; elastic.KeyAsString := None;
     elastic.DocCount := count |}.

(** A deployment whose token is ["secret"], with a healthy search engine
    that holds the indices of scenario A and the buckets of the
    aggregation example, an absent aggregation, or a failing call. *)
Definition scenario (indices : elastic.CatIndicesResponse * option error)
  (search : option (@elastic.SearchResult fmt.NoFloats) * option error)
  : @Env fmt.NoFloats :=
  {| envAccessToken := "secret";
     envDebug := false;
     CatIndices_Do := indices;
     Search_Do := search;
     ParseGlob := (Some (Templates "views/*.gohtml"), None);
     ExecuteTemplate := fun _ _ _ => None |}.

Definition scenarioA_indices : elastic.CatIndicesResponse :=
  map row ["kb-rev3"; "kb-rev1"; "other-index"; "kb-rev2"].

Definition kinds_result : @elastic.SearchResult fmt.NoFloats :=
  {| elastic.TookInMillis := 1;
     elastic.SearchAggregations :=
       [("kinds",
         {| elastic.DocCountErrorUpperBound := 0;
            elastic.SumOfOtherDocCount := 0;
            elastic.Buckets := [bucket "doc" 5; bucket "page" 2] |})] |}.

Definition no_aggregation : @elastic.SearchResult fmt.NoFloats :=
  {| elastic.TookInMillis := 1; elastic.SearchAggregations := [] |}.

(** A fresh process: no template loaded, nothing called. *)
Definition fresh : World := {| templates := None; trace := [] |}.

(** *** Counting the template loads of a trace *)

Definition is_ParseGlob (ev : event) : bool :=
  match ev with
  | CallParseGlob _ => true
  | _ => false
  end.

Definition parses (t : list event) : nat :=
  List.length (filter is_ParseGlob t).

(** *** [main] around the server, and [exit]

    [main] from line 59 on, given the values read from the environment:
    what the main goroutine does, in order.  The outcome of [elastic.Dial]
    and the case the final [select] takes are inputs. *)

(** [elastic.ClientOptionFunc], for the three options [main] uses. *)
Inductive ClientOptionFunc : Type :=
| SetURL (url : string)
| SetSniff (enabled : bool)
| SetBasicAuth (username password : string).

Record Settings : Type := {
  envElasticsearchURL : string;
  envElasticsearchUsername : string;
  envElasticsearchPassword : string;
  envBind : string
}.

(** The block that builds [opts] (lines 64-70). *)
Definition clientOptions (s : Settings) : list ClientOptionFunc :=
  let opts := [SetURL (envElasticsearchURL s); SetSniff false] in
  if negb (String.eqb (envElasticsearchUsername s) "")
     && negb (String.eqb (envElasticsearchPassword s) "")
  then (opts ++ [SetBasicAuth (envElasticsearchUsername s)
                              (envElasticsearchPassword s)])%list
  else opts.

Inductive step : Type :=
| Dial (opts : list ClientOptionFunc)
| Notify (signals : list string)
| GoStart (bind : string)
| Println (operands : list string)
| Sleep (nanoseconds : Z)
| Shutdown
| OsExit (code : Z).

(** The case of [select] that fires: the server returned [err] on
    [chErr], or the signal [sig] arrived on [chSig] and [e.Shutdown] then
    returned [shutdown]. *)
Inductive selected : Type :=
| FromErr (err : option error)
| FromSig (sig : string) (shutdown : option error).

(** [func exit(err *error)], deferred by [main]. *)
Definition exit (err : option error) : list step :=
  match err with
  | Some e => [Println ["exited with error:"; e]; OsExit 1]
  | None => [Println ["exited"]]
  end.

Definition main (s : Settings) (dial : option error) (sel : selected)
  : list step :=
  Dial (clientOptions s) ::
  match dial with
  | Some e => exit (Some e)
  | None =>
      Notify ["SIGTERM"; "SIGINT"] :: GoStart (envBind s) ::
      match sel with
      | FromErr err => exit err
      | FromSig sig shutdown =>
          (Println ["signal caught:"; sig] :: Sleep 1000000000 :: Shutdown ::
           exit shutdown)
      end
  end.

(** The value of [err] when [main] returns. *)
Definition final_error (dial : option error) (sel : selected) : option error :=
  match dial with
  | Some e => Some e
  | None =>
      match sel with
      | FromErr err => err
      | FromSig _ shutdown => shutdown
      end
  end.

(** The status the process ends with: the code of [os.Exit] if it is
    called, 0 when [main] returns. *)
Fixpoint exit_status (steps : list step) : Z :=
  match steps with
  | [] => 0
  | OsExit code :: _ => code
  | _ :: steps' => exit_status steps'
  end.

(** * Properties *)

(** ** [strings] *)

Lemma substring_0_app (p rest : string) :
  substring 0 (String.length p) (p ++ rest) = p.
Proof.
  induction p as [|c p IH]; simpl.
  - destruct rest; reflexivity.
  - now rewrite IH.
Qed.

Lemma substring_0_length (s : string) : substring 0 (String.length s) s = s.
Proof. induction s as [|c s IH]; simpl; [reflexivity | now rewrite IH]. Qed.

Lemma length_app (p rest : string) :
  String.length (p ++ rest) = (String.length p + String.length rest)%nat.
Proof. induction p as [|c p IH]; simpl; [reflexivity | now rewrite IH]. Qed.

Lemma substring_skip_app (p rest : string) :
  substring (String.length p)
            (String.length (p ++ rest) - String.length p) (p ++ rest) = rest.
Proof.
  induction p as [|c p IH]; simpl.
  - rewrite Nat.sub_0_r. apply substring_0_length.
  - exact IH.
Qed.

Lemma substring_split (n : nat) (s : string) :
  (n <= String.length s)%nat ->
  s = substring 0 n s ++ substring n (String.length s - n) s.
Proof.
  revert s. induction n as [|n IH]; intros s Hn.
  - rewrite Nat.sub_0_r, substring_0_length. now destruct s.
  - destruct s as [|c s]; simpl in *; [lia|].
    f_equal. apply IH. lia.
Qed.

Lemma HasPrefix_iff (s p : string) :
  strings.HasPrefix s p = true <-> exists rest, s = p ++ rest.
Proof.
  unfold strings.HasPrefix. rewrite andb_true_iff, Nat.leb_le, String.eqb_eq.
  split.
  - intros [Hlen Hsub].
    exists (substring (String.length p) (String.length s - String.length p) s).
    rewrite <- Hsub at 1. now apply substring_split.
  - intros [rest ->]. split.
    + rewrite length_app. lia.
    + apply substring_0_app.
Qed.

Lemma TrimPrefix_app (p rest : string) :
  strings.TrimPrefix (p ++ rest) p = rest.
Proof.
  unfold strings.TrimPrefix.
  replace (strings.HasPrefix (p ++ rest) p) with true
    by (symmetry; apply HasPrefix_iff; now exists rest).
  apply substring_skip_app.
Qed.

Lemma app_inv_prefix (p r1 r2 : string) : p ++ r1 = p ++ r2 -> r1 = r2.
Proof.
  induction p as [|c p IH]; simpl; intros H; [exact H|].
  injection H as H. auto.
Qed.

(** ** [strconv] *)

Lemma byte_range (c : ascii) : 0 <= strconv.byte c < 256.
Proof.
  unfold strconv.byte. pose proof (N_ascii_bounded c). lia.
Qed.

Lemma is_digit_range (c : ascii) :
  is_digit c = true <-> 48 <= strconv.byte c <= 57.
Proof. unfold is_digit. rewrite andb_true_iff, !Z.leb_le. tauto. Qed.

Lemma to_byte_digit (c : ascii) :
  is_digit c = true -> strconv.to_byte (strconv.byte c - 48) = strconv.byte c - 48.
Proof.
  rewrite is_digit_range. intros H. unfold strconv.to_byte.
  apply Z.mod_small. lia.
Qed.

Lemma to_byte_nondigit (c : ascii) :
  is_digit c = false -> strconv.to_byte (strconv.byte c - 48) > 9.
Proof.
  intros H. pose proof (byte_range c) as Hb.
  assert (Hr : ~ 48 <= strconv.byte c <= 57).
  { rewrite <- is_digit_range. congruence. }
  unfold strconv.to_byte.
  destruct (Z_lt_le_dec (strconv.byte c) 48) as [Hlo|Hhi].
  - replace (strconv.byte c - 48) with (strconv.byte c + 208 + (-1) * 256) by ring.
    rewrite Z.mod_add by lia. rewrite Z.mod_small; lia.
  - rewrite Z.mod_small; lia.
Qed.

Lemma to_int_small (z : Z) : fits_int z -> strconv.to_int z = z.
Proof.
  unfold fits_int, minInt, maxInt, strconv.to_int, strconv.intSize.
  change (2 ^ (64 - 1)) with (2 ^ 63). intros H.
  rewrite Z.mod_small; lia.
Qed.

Lemma to_int64_small (z : Z) : fits_int z -> strconv.to_int64 z = z.
Proof.
  unfold fits_int, minInt, maxInt, strconv.to_int64. intros H.
  rewrite Z.mod_small; lia.
Qed.

Lemma to_uint64_small (z : Z) :
  0 <= z <= strconv.maxUint64 -> strconv.to_uint64 z = z.
Proof.
  unfold strconv.maxUint64, strconv.to_uint64. intros H.
  apply Z.mod_small. lia.
Qed.

Lemma pow10_pos (n : nat) : 0 < 10 ^ Z.of_nat n.
Proof. apply Z.pow_pos_nonneg; lia. Qed.

Lemma pow10_succ (n : nat) : 10 ^ Z.of_nat (S n) = 10 * 10 ^ Z.of_nat n.
Proof. rewrite Nat2Z.inj_succ, Z.pow_succ_r by lia. reflexivity. Qed.

(** The digits [s] after a prefix of value [acc] spell a number between
    [acc * 10^|s|] and [acc * 10^|s| + 10^|s| - 1]. *)
Lemma decimal_from_bounds (s : string) :
  all_digits s = true ->
  forall acc,
    acc * 10 ^ Z.of_nat (String.length s) <= decimal_from acc s
    <= acc * 10 ^ Z.of_nat (String.length s)
       + 10 ^ Z.of_nat (String.length s) - 1.
Proof.
  induction s as [|c s IH]; intros Hd acc.
  - simpl. lia.
  - cbn [all_digits] in Hd. apply andb_true_iff in Hd as [Hc Hs].
    apply is_digit_range in Hc.
    cbn [decimal_from String.length]. rewrite pow10_succ.
    specialize (IH Hs (10 * acc + (strconv.byte c - 48))).
    pose proof (pow10_pos (String.length s)) as HP.
    set (P := 10 ^ Z.of_nat (String.length s)) in *.
    set (d := strconv.byte c - 48) in *.
    assert (0 <= d * P <= 9 * P) by nia.
    lia.
Qed.

(** The positional reading: the first digit weighs [10^(|s|-1)]. *)
Lemma decimal_from_cons (c : ascii) (s : string) (acc : Z) :
  decimal_from acc (String c s)
  = (10 * acc + (strconv.byte c - 48)) * 10 ^ Z.of_nat (String.length s)
    + decimal_value s.
Proof.
  cbn [decimal_from]. unfold decimal_value.
  generalize (10 * acc + (strconv.byte c - 48)) as a.
  induction s as [|c' s IH]; intros a.
  - simpl. lia.
  - cbn [decimal_from String.length]. rewrite pow10_succ.
    rewrite IH. rewrite (IH (10 * 0 + _)). ring.
Qed.

Lemma Atoi_loop_spec (s : string) :
  forall n,
    0 <= n -> (n + 1) * 10 ^ Z.of_nat (String.length s) <= 2 ^ 63 ->
    strconv.Atoi_loop n s
    = if all_digits s then Some (decimal_from n s) else None.
Proof.
  induction s as [|c s IH]; intros n Hn Hb.
  - reflexivity.
  - cbn [strconv.Atoi_loop all_digits decimal_from String.length] in *.
    rewrite pow10_succ in Hb.
    pose proof (pow10_pos (String.length s)) as HP.
    destruct (is_digit c) eqn:Hc.
    + rewrite to_byte_digit by exact Hc.
      apply is_digit_range in Hc.
      replace (strconv.byte c - 48 >? 9) with false by (symmetry; lia).
      set (P := 10 ^ Z.of_nat (String.length s)) in *.
      set (d := strconv.byte c - 48) in *.
      assert (Hb' : (n * 10 + d + 1) * P <= 2 ^ 63) by nia.
      rewrite to_int_small by (unfold fits_int, minInt, maxInt; nia).
      replace (10 * n + d) with (n * 10 + d) by ring.
      rewrite IH by (try exact Hb'; lia).
      reflexivity.
    + pose proof (to_byte_nondigit c Hc).
      replace (strconv.to_byte (strconv.byte c - 48) >? 9) with true
        by (symmetry; lia).
      reflexivity.
Qed.

Lemma digit_of_digit (c : ascii) :
  is_digit c = true ->
  strconv.digit_of (strconv.byte c) = Some (strconv.byte c - 48).
Proof.
  intros H. unfold strconv.digit_of. fold (is_digit c). rewrite H.
  now rewrite to_byte_digit.
Qed.

Lemma digit_of_nondigit (c : ascii) :
  is_digit c = false ->
  match strconv.digit_of (strconv.byte c) with
  | Some d => (d >=? strconv.base) = true
  | None => True
  end.
Proof.
  intros H. unfold strconv.digit_of. fold (is_digit c). rewrite H.
  destruct (_ && _) eqn:Hl; [|exact I].
  apply andb_true_iff in Hl as [H1 H2]. apply Z.leb_le in H1, H2.
  unfold strconv.to_byte, strconv.base.
  rewrite Z.mod_small by lia. lia.
Qed.

Lemma maxVal_eq : strconv.maxVal = strconv.maxUint64.
Proof. reflexivity. Qed.

(** The loop of [ParseUint] yields the value of the digits when it fits a
    [uint64], reports a range error when it does not, and an error of one
    of the two kinds when a byte is not a digit. *)
Lemma ParseUint_loop_spec (s : string) :
  forall n,
    0 <= n <= strconv.maxUint64 ->
    if all_digits s
    then if decimal_from n s <=? strconv.maxUint64
         then strconv.ParseUint_loop n s = (decimal_from n s, None)
         else strconv.ParseUint_loop n s
              = (strconv.maxUint64, Some strconv.ErrRange)
    else strconv.ParseUint_loop n s = (0, Some strconv.ErrSyntax)
         \/ strconv.ParseUint_loop n s
            = (strconv.maxUint64, Some strconv.ErrRange).
Proof.
  induction s as [|c s IH]; intros n Hn.
  - simpl. replace (n <=? strconv.maxUint64) with true by (symmetry; lia).
    reflexivity.
  - cbn [all_digits decimal_from].
    destruct (is_digit c) eqn:Hc; cbn [andb].
    + set (d := strconv.byte c - 48).
      assert (Hd : 0 <= d <= 9) by (apply is_digit_range in Hc; subst d; lia).
      assert (Hmono : all_digits s = true ->
                      10 * n + d <= decimal_from (10 * n + d) s).
      { intros Hs. pose proof (decimal_from_bounds s Hs (10 * n + d)) as Hbd.
        pose proof (pow10_pos (String.length s)). nia. }
      assert (Hstep :
        strconv.ParseUint_loop n (String c s)
        = if (n >=? strconv.cutoff) || (strconv.maxUint64 <? 10 * n + d)
          then (strconv.maxUint64, Some strconv.ErrRange)
          else strconv.ParseUint_loop (10 * n + d) s).
      { cbn [strconv.ParseUint_loop].
        rewrite (digit_of_digit c Hc). fold d.
        replace (d >=? strconv.base) with false
          by (symmetry; unfold strconv.base; lia).
        rewrite maxVal_eq.
        destruct (n >=? strconv.cutoff) eqn:Hcut; [reflexivity|].
        cbn [orb].
        unfold strconv.cutoff, strconv.base, strconv.maxUint64 in *.
        change (2 ^ 64 - 1) with 18446744073709551615 in *.
        change (18446744073709551615 / 10 + 1) with 1844674407370955162 in *.
        assert (Hn10 : strconv.to_uint64 (n * 10) = n * 10).
        { apply to_uint64_small. unfold strconv.maxUint64. lia. }
        rewrite Hn10.
        destruct (Z_le_gt_dec (n * 10 + d) 18446744073709551615) as [Hle|Hgt].
        - rewrite to_uint64_small by (unfold strconv.maxUint64; lia).
          replace (n * 10 + d <? n * 10) with false by (symmetry; lia).
          replace (n * 10 + d >? 18446744073709551615) with false
            by (symmetry; lia).
          replace (18446744073709551615 <? 10 * n + d) with false
            by (symmetry; lia).
          cbn [orb]. now replace (n * 10 + d) with (10 * n + d) by ring.
        - assert (Hw : strconv.to_uint64 (n * 10 + d) = n * 10 + d - 2 ^ 64).
          { unfold strconv.to_uint64.
            replace (n * 10 + d) with (n * 10 + d - 2 ^ 64 + 1 * 2 ^ 64) at 1
              by ring.
            rewrite Z.mod_add by lia. apply Z.mod_small. lia. }
          rewrite Hw.
          replace (n * 10 + d - 2 ^ 64 <? n * 10) with true by (symmetry; lia).
          replace (18446744073709551615 <? 10 * n + d) with true
            by (symmetry; lia).
          reflexivity. }
      rewrite Hstep.
      destruct ((n >=? strconv.cutoff) || (strconv.maxUint64 <? 10 * n + d))
        eqn:Hover.
      * assert (Hbig : strconv.maxUint64 < 10 * n + d).
        { apply orb_true_iff in Hover as [H|H].
          - unfold strconv.cutoff, strconv.maxUint64 in *.
            change (2 ^ 64 - 1) with 18446744073709551615 in *.
            change (18446744073709551615 / 10 + 1)
              with 1844674407370955162 in *.
            lia.
          - lia. }
        destruct (all_digits s) eqn:Hs; [|now right].
        specialize (Hmono eq_refl).
        replace (decimal_from (10 * n + d) s <=? strconv.maxUint64)
          with false by (symmetry; lia).
        reflexivity.
      * apply orb_false_iff in Hover as [_ Hle].
        apply IH. lia.
    + pose proof (digit_of_nondigit c Hc) as Hnd.
      cbn [strconv.ParseUint_loop].
      destruct (strconv.digit_of (strconv.byte c)) as [d|]; [|now left].
      rewrite Hnd. now left.
Qed.

Lemma fits_intb_spec (n : Z) : fits_intb n = true <-> fits_int n.
Proof.
  unfold fits_intb, fits_int. rewrite andb_true_iff, !Z.leb_le. tauto.
Qed.

Lemma decimal_value_nonneg (ds : string) :
  all_digits ds = true -> 0 <= decimal_value ds.
Proof.
  intros H. pose proof (decimal_from_bounds ds H 0) as Hb.
  unfold decimal_value. lia.
Qed.

Lemma unsigned_value_Some (ds : string) (v : Z) :
  unsigned_value ds = Some v
  <-> ds <> "" /\ all_digits ds = true /\ v = decimal_value ds.
Proof.
  unfold unsigned_value.
  destruct (all_digits ds); cbn [andb];
    destruct (String.eqb_spec ds ""); cbn [negb]; split;
    try discriminate; try tauto; try intuition congruence.
Qed.

Lemma digit_not_sign (c : ascii) :
  is_digit c = true -> Ascii.eqb c "+" = false /\ Ascii.eqb c "-" = false.
Proof.
  intros H. split.
  - destruct (Ascii.eqb_spec c "+") as [->|]; [discriminate H|reflexivity].
  - destruct (Ascii.eqb_spec c "-") as [->|]; [discriminate H|reflexivity].
Qed.

(** [numeral_value] decides [SignedDecimal]. *)
Lemma SignedDecimal_numeral_value (s : string) (n : Z) :
  SignedDecimal s n <-> numeral_value s = Some n.
Proof.
  split.
  - intros H. destruct H as [ds Hne Hd|ds Hne Hd|ds Hne Hd].
    + destruct ds as [|c0 rest]; [congruence|].
      cbn [numeral_value].
      cbn [all_digits] in Hd. apply andb_true_iff in Hd as Hd'.
      destruct Hd' as [Hc _]. destruct (digit_not_sign c0 Hc) as [-> ->].
      apply unsigned_value_Some. auto.
    + cbn. apply unsigned_value_Some. auto.
    + cbn. replace (unsigned_value ds) with (Some (decimal_value ds)).
      * reflexivity.
      * symmetry. apply unsigned_value_Some. auto.
  - destruct s as [|c0 rest]; [discriminate|]. cbn [numeral_value].
    destruct (Ascii.eqb_spec c0 "+") as [->|Hp].
    + intros H. apply unsigned_value_Some in H as (Hne & Hd & ->).
      now constructor.
    + destruct (Ascii.eqb_spec c0 "-") as [->|Hm].
      * destruct (unsigned_value rest) as [v|] eqn:Hv; [|discriminate].
        cbn. intros [= <-].
        apply unsigned_value_Some in Hv as (Hne & Hd & ->).
        now constructor.
      * intros H. apply unsigned_value_Some in H as (Hne & Hd & ->).
        now constructor.
Qed.

Lemma ParseUint_spec (ds : string) :
  match unsigned_value ds with
  | Some v =>
      if v <=? strconv.maxUint64
      then strconv.ParseUint ds = (v, None)
      else strconv.ParseUint ds = (strconv.maxUint64, Some strconv.ErrRange)
  | None =>
      strconv.ParseUint ds = (0, Some strconv.ErrSyntax)
      \/ strconv.ParseUint ds = (strconv.maxUint64, Some strconv.ErrRange)
  end.
Proof.
  destruct ds as [|c ds]; [now left|].
  assert (H0 : 0 <= 0 <= strconv.maxUint64) by (unfold strconv.maxUint64; lia).
  pose proof (ParseUint_loop_spec (String c ds) 0 H0) as H.
  unfold unsigned_value. cbn [strconv.ParseUint String.eqb negb].
  rewrite andb_true_r.
  destruct (all_digits (String c ds)); exact H.
Qed.

Lemma cut_eq : strconv.to_uint64 (Z.shiftl 1 (strconv.intSize - 1)) = 2 ^ 63.
Proof. reflexivity. Qed.

(** The end of [ParseInt]: the range check on the magnitude [un] and the
    sign. *)
Lemma ParseInt_range (neg : bool) (un : Z) :
  0 <= un <= strconv.maxUint64 ->
  let n := if neg then - un else un in
  let cut := 2 ^ 63 in
  if fits_intb n
  then (if negb neg && (un >=? cut)
          then (strconv.to_int64 (cut - 1), Some strconv.ErrRange)
          else if neg && (un >? cut)
          then (strconv.to_int64 (- strconv.to_int64 cut), Some strconv.ErrRange)
          else (if neg then strconv.to_int64 (- strconv.to_int64 un)
                else strconv.to_int64 un, None))
       = (n, None)
  else snd (if negb neg && (un >=? cut)
          then (strconv.to_int64 (cut - 1), Some strconv.ErrRange)
          else if neg && (un >? cut)
          then (strconv.to_int64 (- strconv.to_int64 cut), Some strconv.ErrRange)
          else (if neg then strconv.to_int64 (- strconv.to_int64 un)
                else strconv.to_int64 un, @None strconv.NumError))
       = Some strconv.ErrRange.
Proof.
  intros Hun n cut. subst n cut.
  unfold strconv.maxUint64 in Hun.
  destruct (fits_intb _) eqn:Hfit.
  - apply fits_intb_spec in Hfit. unfold fits_int, minInt, maxInt in Hfit.
    destruct neg; cbn [negb andb].
    + replace (un >? 2 ^ 63) with false by (symmetry; lia).
      destruct (Z.eq_dec un (2 ^ 63)) as [->|Hne].
      * reflexivity.
      * rewrite (to_int64_small un)
          by (unfold fits_int, minInt, maxInt; lia).
        rewrite to_int64_small
          by (unfold fits_int, minInt, maxInt; lia).
        reflexivity.
    + replace (un >=? 2 ^ 63) with false by (symmetry; lia).
      rewrite to_int64_small by (unfold fits_int, minInt, maxInt; lia).
      reflexivity.
  - assert (Hnf : ~ fits_int (if neg then - un else un)).
    { rewrite <- fits_intb_spec. congruence. }
    unfold fits_int, minInt, maxInt in Hnf.
    destruct neg; cbn [negb andb].
    + replace (un >? 2 ^ 63) with true by (symmetry; lia). reflexivity.
    + replace (un >=? 2 ^ 63) with true by (symmetry; lia). reflexivity.
Qed.

Lemma ParseInt_signed (neg : bool) (ds : string) :
  let tail (r : Z * option strconv.NumError) :=
    let '(un, err) := r in
    match err with
    | Some strconv.ErrSyntax => (0, err)
    | _ =>
        let cut := strconv.to_uint64 (Z.shiftl 1 (strconv.intSize - 1)) in
        if negb neg && (un >=? cut)
        then (strconv.to_int64 (cut - 1), Some strconv.ErrRange)
        else if neg && (un >? cut)
        then (strconv.to_int64 (- strconv.to_int64 cut), Some strconv.ErrRange)
        else (if neg then strconv.to_int64 (- strconv.to_int64 un)
              else strconv.to_int64 un, None)
    end in
  match unsigned_value ds with
  | Some v =>
      let n := if neg then - v else v in
      if fits_intb n
      then tail (strconv.ParseUint ds) = (n, None)
      else snd (tail (strconv.ParseUint ds)) = Some strconv.ErrRange
  | None => snd (tail (strconv.ParseUint ds)) <> None
  end.
Proof.
  intros tail. subst tail. cbv beta. rewrite cut_eq.
  pose proof (ParseUint_spec ds) as HU.
  destruct (unsigned_value ds) as [v|] eqn:Hv.
  - apply unsigned_value_Some in Hv as (Hne & Hd & ->).
    pose proof (decimal_value_nonneg ds Hd) as Hnn.
    set (v := decimal_value ds) in *.
    destruct (v <=? strconv.maxUint64) eqn:Hle.
    + rewrite HU. apply (ParseInt_range neg v). lia.
    + rewrite HU. cbv zeta.
      assert (Hbig : strconv.maxUint64 < v) by lia.
      unfold strconv.maxUint64 in *.
      replace (fits_intb (if neg then - v else v)) with false.
      * destruct neg; reflexivity.
      * symmetry. apply not_true_is_false. rewrite fits_intb_spec.
        unfold fits_int, minInt, maxInt. destruct neg; lia.
  - destruct HU as [-> | ->].
    + discriminate.
    + destruct neg; discriminate.
Qed.

(** [ParseInt] reads exactly the signed decimal numerals that fit an
    [int]. *)
Lemma ParseInt_spec (s : string) :
  match numeral_value s with
  | Some n =>
      if fits_intb n
      then strconv.ParseInt s = (n, None)
      else snd (strconv.ParseInt s) = Some strconv.ErrRange
  | None => snd (strconv.ParseInt s) <> None
  end.
Proof.
  destruct s as [|c0 rest]; [discriminate|].
  cbn [numeral_value strconv.ParseInt].
  destruct (Ascii.eqb_spec c0 "+") as [->|Hp].
  - exact (ParseInt_signed false rest).
  - destruct (Ascii.eqb_spec c0 "-") as [->|Hm].
    + pose proof (ParseInt_signed true rest) as H. cbv zeta in H.
      destruct (unsigned_value rest); exact H.
    + exact (ParseInt_signed false (String c0 rest)).
Qed.

Lemma Atoi_loop_short (s : string) :
  (String.length s <= 18)%nat ->
  strconv.Atoi_loop 0 s
  = (if all_digits s then Some (decimal_value s) else None)
  /\ (all_digits s = true -> 0 <= decimal_value s < 10 ^ 18).
Proof.
  intros Hlen.
  assert (Hpow : 10 ^ Z.of_nat (String.length s) <= 10 ^ 18).
  { apply Z.pow_le_mono_r; lia. }
  split.
  - apply Atoi_loop_spec; lia.
  - intros Hd. pose proof (decimal_from_bounds s Hd 0) as Hb.
    unfold decimal_value. lia.
Qed.

(** [Atoi] reads exactly the signed decimal numerals that fit an [int]:
    it returns the value of such a numeral with a [nil] error, and an
    error on every other string. *)
Lemma Atoi_numeral_value (s : string) :
  match numeral_value s with
  | Some n =>
      if fits_intb n
      then strconv.Atoi s = (n, None)
      else snd (strconv.Atoi s) <> None
  | None => snd (strconv.Atoi s) <> None
  end.
Proof.
  unfold strconv.Atoi.
  change (strconv.intSize =? 32) with false.
  change (strconv.intSize =? 64) with true. cbn [andb orb].
  destruct ((0 <? Z.of_nat (String.length s))
            && (Z.of_nat (String.length s) <? 19)) eqn:Hfast.
  - apply andb_true_iff in Hfast as [H0 H19].
    apply Z.ltb_lt in H0, H19.
    destruct s as [|c0 rest]; [simpl in H0; lia|].
    cbn [String.length] in H19.
    assert (Hfit : forall v, 0 <= v < 10 ^ 18 ->
                   fits_int v /\ fits_int (- v)).
    { unfold fits_int, minInt, maxInt. lia. }
    cbn [numeral_value].
    destruct (Ascii.eqb_spec c0 "+") as [->|Hp];
      [|destruct (Ascii.eqb_spec c0 "-") as [->|Hm]]; cbn [orb andb].
    + change (Ascii.eqb "+" "-") with false. cbn [orb andb].
      destruct (Atoi_loop_short rest) as [Hloop Hval]; [lia|].
      unfold unsigned_value. rewrite Hloop.
      destruct rest as [|c1 rest']; [cbn; discriminate|].
      cbn [String.length Nat.ltb Nat.leb String.eqb negb].
      rewrite andb_true_r.
      destruct (all_digits (String c1 rest')); [|discriminate].
      destruct (Hfit _ (Hval eq_refl)) as [Hf _].
      apply fits_intb_spec in Hf. rewrite Hf. reflexivity.
    + destruct (Atoi_loop_short rest) as [Hloop Hval]; [lia|].
      unfold unsigned_value. rewrite Hloop.
      destruct rest as [|c1 rest']; [cbn; discriminate|].
      cbn [String.length Nat.ltb Nat.leb String.eqb negb].
      rewrite andb_true_r.
      destruct (all_digits (String c1 rest')); [|discriminate].
      cbn [option_map].
      destruct (Hfit _ (Hval eq_refl)) as [_ Hf].
      rewrite (to_int_small _ Hf).
      apply fits_intb_spec in Hf. rewrite Hf. reflexivity.
    + destruct (Atoi_loop_short (String c0 rest)) as [Hloop Hval];
        [cbn [String.length]; lia|].
      unfold unsigned_value. rewrite Hloop.
      cbn [String.eqb negb]. rewrite andb_true_r.
      destruct (all_digits (String c0 rest)); [|discriminate].
      destruct (Hfit _ (Hval eq_refl)) as [Hf _].
      apply fits_intb_spec in Hf. rewrite Hf.
      destruct (Ascii.eqb_spec c0 "-"); [contradiction|reflexivity].
  - pose proof (ParseInt_spec s) as H.
    destruct (strconv.ParseInt s) as [i64 err].
    destruct (numeral_value s) as [n|]; [|exact H].
    destruct (fits_intb n) eqn:Hf.
    + injection H as -> ->. apply fits_intb_spec in Hf.
      now rewrite to_int_small.
    + cbn [snd] in *. congruence.
Qed.

(** [Atoi(s)] returns [n] and no error exactly when [s] is a signed
    decimal numeral of value [n] and [n] fits an [int]. *)
Lemma Atoi_spec (s : string) (n : Z) :
  strconv.Atoi s = (n, None) <-> SignedDecimal s n /\ fits_int n.
Proof.
  rewrite SignedDecimal_numeral_value.
  pose proof (Atoi_numeral_value s) as H.
  destruct (numeral_value s) as [m|].
  - destruct (fits_intb m) eqn:Hf.
    + apply fits_intb_spec in Hf. rewrite H. split.
      * intros [= <-]. auto.
      * intros [[= <-] _]. reflexivity.
    + assert (~ fits_int m) by (rewrite <- fits_intb_spec; congruence).
      split.
      * intros E. rewrite E in H. now contradiction H.
      * intros [[= <-] Hfit]. contradiction.
  - split.
    + intros E. rewrite E in H. now contradiction H.
    + intros [[=] _].
Qed.

(** ** [sort]: insertion sort meets the contract of [Slice] *)

Section InsertionSort.

Context {A : Type} (less : A -> A -> bool).

Lemma sink_Permutation (x : A) (before : list A) :
  Permutation (x :: before) (sort.sink less x before).
Proof.
  induction before as [|y before IH]; simpl.
  - reflexivity.
  - destruct (less x y).
    + rewrite perm_swap. now apply perm_skip.
    + reflexivity.
Qed.

Lemma insertionSort_from_Permutation (rest before : list A) :
  Permutation (rev before ++ rest) (sort.insertionSort_from less before rest).
Proof.
  revert before. induction rest as [|x rest IH]; intros before; simpl.
  - now rewrite app_nil_r.
  - rewrite <- IH.
    rewrite <- (Permutation_rev (sort.sink less x before)).
    rewrite <- sink_Permutation.
    rewrite <- Permutation_rev.
    symmetry. apply Permutation_middle.
Qed.

Hypothesis swo : sort.StrictWeakOrder less.

(** [before] runs from the last element down: each element is not less
    than the one that follows it in [before]. *)
Let down (a b : A) : Prop := less a b = false.

Lemma sink_HdRel (y x : A) (before : list A) :
  less x y = true -> HdRel down y before ->
  HdRel down y (sort.sink less x before).
Proof.
  intros Hxy Hhd.
  assert (Hyx : down y x).
  { unfold down. destruct (less y x) eqn:E; [|reflexivity].
    pose proof (sort.swo_trans less swo _ _ _ Hxy E) as Hxx.
    rewrite (sort.swo_irrefl less swo) in Hxx. discriminate. }
  destruct before as [|z before]; simpl.
  - now constructor.
  - destruct (less x z); constructor.
    + now inversion Hhd.
    + exact Hyx.
Qed.

Lemma sink_Sorted (x : A) (before : list A) :
  Sorted down before -> Sorted down (sort.sink less x before).
Proof.
  induction before as [|y before IH]; intros Hs; simpl.
  - repeat constructor.
  - inversion Hs as [|? ? Hs' Hhd]; subst.
    destruct (less x y) eqn:Hxy.
    + constructor; [now apply IH | now apply sink_HdRel].
    + constructor; [exact Hs | now constructor].
Qed.

Lemma Sorted_snoc (R : A -> A -> Prop) (l : list A) (a : A) :
  Sorted R l -> HdRel (fun x y => R y x) a (rev l) -> Sorted R (l ++ [a]).
Proof.
  induction l as [|b l IH]; intros Hs Hhd; simpl.
  - repeat constructor.
  - inversion Hs as [|? ? Hs' Hb]; subst. simpl in Hhd.
    constructor.
    + apply IH; [exact Hs'|].
      destruct (rev l) as [|z zs]; [constructor|].
      simpl in Hhd. inversion Hhd; subst. now constructor.
    + destruct l as [|c l]; simpl.
      * inversion Hhd; subst. now constructor.
      * inversion Hb; subst. now constructor.
Qed.

Lemma Sorted_rev (R : A -> A -> Prop) (l : list A) :
  Sorted R l -> Sorted (fun x y => R y x) (rev l).
Proof.
  induction l as [|a l IH]; intros Hs; simpl.
  - constructor.
  - inversion Hs as [|? ? Hs' Ha]; subst.
    apply Sorted_snoc; [now apply IH|].
    rewrite rev_involutive.
    destruct l; inversion Ha; subst; now constructor.
Qed.

Lemma insertionSort_from_IsSorted (rest before : list A) :
  Sorted down before ->
  sort.IsSorted less (sort.insertionSort_from less before rest).
Proof.
  revert before. induction rest as [|x rest IH]; intros before Hs; simpl.
  - unfold sort.IsSorted. now apply (Sorted_rev down).
  - apply IH. now apply sink_Sorted.
Qed.

End InsertionSort.

(** The sorter the closed examples run on. *)
Definition insertionSorter : sort.Sorter :=
  {| sort.Slice := @sort.insertionSort;
     sort.Slice_Permutation :=
       fun A less x => insertionSort_from_Permutation less x [];
     sort.Slice_IsSorted :=
       fun A less x swo =>
         insertionSort_from_IsSorted less swo x [] (Sorted_nil _) |}.

Lemma IsSorted_nth_error {A : Type} (less : A -> A -> bool) (l : list A) :
  sort.IsSorted less l ->
  forall i a b,
    nth_error l i = Some a -> nth_error l (S i) = Some b -> less b a = false.
Proof.
  unfold sort.IsSorted. induction 1 as [|x l Hs IH Hhd]; intros i a b Ha Hb.
  - destruct i; discriminate.
  - destruct i as [|i].
    + simpl in Ha, Hb. injection Ha as <-.
      destruct l as [|y l]; [discriminate|].
      simpl in Hb. injection Hb as <-. now inversion Hhd.
    + simpl in Ha. exact (IH i a b Ha Hb).
Qed.

(** ** The revision resolver *)

Lemma collect_entries (res : elastic.CatIndicesResponse) :
  forall indices, collect res indices = (indices ++ entries res)%list.
Proof.
  induction res as [|item res IH]; intros indices.
  - simpl. now rewrite app_nil_r.
  - cbn [collect entries flat_map]. unfold entry_of.
    destruct (strings.HasPrefix (elastic.Index item) indexPrefix); cbn [negb].
    + destruct (strconv.Atoi _) as [rev [err|]].
      * apply IH.
      * rewrite IH, <- app_assoc. reflexivity.
    + apply IH.
Qed.

(** The loop appends an entry for [name] exactly when [name] is the prefix
    followed by a signed decimal numeral that fits an [int]; the entry
    carries the name and the value of the numeral. *)
Lemma entry_of_spec (name : string) (e : DataIndex) :
  entry_of name = Some e
  <-> Index e = name
      /\ exists rest,
           name = indexPrefix ++ rest
           /\ SignedDecimal rest (Rev e) /\ fits_int (Rev e).
Proof.
  unfold entry_of. split.
  - destruct (strings.HasPrefix name indexPrefix) eqn:Hp; [|discriminate].
    apply HasPrefix_iff in Hp as [rest ->].
    rewrite TrimPrefix_app.
    destruct (strconv.Atoi rest) as [rev [err|]] eqn:HA; [discriminate|].
    intros [= <-]. cbn [Index Rev]. split; [reflexivity|].
    exists rest. split; [reflexivity|]. now apply Atoi_spec.
  - intros [Hi (rest & -> & Hsd)].
    replace (strings.HasPrefix (indexPrefix ++ rest) indexPrefix) with true
      by (symmetry; apply HasPrefix_iff; now exists rest).
    rewrite TrimPrefix_app.
    apply Atoi_spec in Hsd. rewrite Hsd.
    destruct e as [i r]. cbn in *. now subst.
Qed.

Lemma SignedDecimal_functional (s : string) (n m : Z) :
  SignedDecimal s n -> SignedDecimal s m -> n = m.
Proof.
  rewrite !SignedDecimal_numeral_value. congruence.
Qed.

Lemma In_entries (res : elastic.CatIndicesResponse) (e : DataIndex) :
  In e (entries res)
  <-> exists item, In item res /\ entry_of (elastic.Index item) = Some e.
Proof.
  unfold entries. rewrite in_flat_map. split.
  - intros (item & Hin & He). exists item. split; [exact Hin|].
    destruct (entry_of (elastic.Index item)) as [e'|]; [|contradiction].
    destruct He as [->|[]]. reflexivity.
  - intros (item & Hin & He). exists item. split; [exact Hin|].
    rewrite He. now left.
Qed.

Lemma less_StrictWeakOrder : sort.StrictWeakOrder less.
Proof.
  unfold less. split.
  - intros a. rewrite Z.gtb_ltb. apply Z.ltb_irrefl.
  - intros a b c. rewrite !Z.gtb_ltb, !Z.ltb_lt. lia.
  - intros a b c. rewrite !Z.gtb_ltb, !Z.ltb_ge. lia.
Qed.

Section Resolver.

Context `{sorter : sort.Sorter}.

(** The three steps of the resolver on the entries of the response. *)
Lemma resolve_entries (res : elastic.CatIndicesResponse) :
  resolve res
  = match sort.Slice less (entries res) with
    | [] => [{| Index := indexPrefix ++ "1"; Rev := 1 |}]
    | sorted => sorted
    end.
Proof.
  unfold resolve. rewrite collect_entries. cbn [app].
  destruct (sort.Slice less (entries res)); reflexivity.
Qed.

Lemma Slice_nil_iff {A : Type} (lt : A -> A -> bool) (l : list A) :
  sort.Slice lt l = [] <-> l = [].
Proof.
  pose proof (sort.Slice_Permutation A lt l) as HP. split; intros H.
  - rewrite H in HP. now apply Permutation_nil, Permutation_sym.
  - subst l. now apply Permutation_nil.
Qed.

Lemma resolve_empty (res : elastic.CatIndicesResponse) :
  entries res = [] ->
  resolve res = [{| Index := indexPrefix ++ "1"; Rev := 1 |}].
Proof.
  intros H. rewrite resolve_entries.
  now replace (sort.Slice less (entries res)) with (@nil DataIndex)
    by (symmetry; now apply Slice_nil_iff).
Qed.

Lemma resolve_nonempty (res : elastic.CatIndicesResponse) :
  entries res <> [] -> resolve res = sort.Slice less (entries res).
Proof.
  intros H. rewrite resolve_entries.
  destruct (sort.Slice less (entries res)) eqn:E; [|reflexivity].
  apply Slice_nil_iff in E. contradiction.
Qed.

Lemma In_resolve (res : elastic.CatIndicesResponse) (e : DataIndex) :
  In e (resolve res)
  <-> In e (entries res)
      \/ (entries res = [] /\ e = {| Index := indexPrefix ++ "1"; Rev := 1 |}).
Proof.
  destruct (entries res) as [|e0 es] eqn:E.
  - rewrite resolve_empty by exact E. simpl. intuition congruence.
  - rewrite resolve_nonempty by congruence. rewrite E.
    pose proof (sort.Slice_Permutation _ less (e0 :: es)) as HP.
    split.
    + intros H. left. apply Permutation_sym in HP.
      exact (Permutation_in _ HP H).
    + intros [H|[H _]]; [|discriminate].
      exact (Permutation_in _ HP H).
Qed.

Lemma resolve_IsSorted (res : elastic.CatIndicesResponse) :
  sort.IsSorted less (resolve res).
Proof.
  rewrite resolve_entries.
  pose proof (sort.Slice_IsSorted _ less (entries res) less_StrictWeakOrder)
    as HS.
  destruct (sort.Slice less (entries res)); [|exact HS].
  repeat constructor.
Qed.

End Resolver.

Lemma SignedDecimal_one : SignedDecimal "1" 1.
Proof. apply (SD_unsigned "1"); [discriminate | reflexivity]. Qed.

Lemma fits_int_one : fits_int 1.
Proof. unfold fits_int, minInt, maxInt. lia. Qed.

(** C1.  For every response and every index name in it, the resolver
    produces an entry for that name if and only if the name is the prefix
    followed by a base-10 signed integer numeral whose value [N] fits Go's
    [int] (that is, [strconv.Atoi] parses the remainder); every entry
    produced for the name then carries [Rev = N].  The resolver is a total
    function: a name that does not parse is left out and nothing fails. *)
Theorem resolve_entry_iff_numeral `{sorter : sort.Sorter}
  (res : elastic.CatIndicesResponse) (name : string) :
  In name (map elastic.Index res) ->
  ((exists e, In e (resolve res) /\ Index e = name)
   <-> (exists rest N,
          name = indexPrefix ++ rest /\ SignedDecimal rest N /\ fits_int N))
  /\ (forall e rest N,
        In e (resolve res) -> Index e = name ->
        name = indexPrefix ++ rest -> SignedDecimal rest N -> Rev e = N).
Proof.
  intros Hname. apply in_map_iff in Hname as (item & Hitem & Hin).
  assert (Hparsed : forall e, In e (resolve res) -> Index e = name ->
            exists rest, name = indexPrefix ++ rest
                         /\ SignedDecimal rest (Rev e) /\ fits_int (Rev e)).
  { intros e He Hi. apply In_resolve in He as [He|[_ ->]].
    - apply In_entries in He as (item' & _ & He).
      apply entry_of_spec in He as (Hi' & rest & Hn & Hsd).
      exists rest. rewrite <- Hi, Hi'. auto.
    - cbn [Index Rev] in *. exists "1". subst name.
      auto using SignedDecimal_one, fits_int_one. }
  split; [split|].
  - intros (e & He & Hi). destruct (Hparsed e He Hi) as (rest & Hn & Hsd).
    now exists rest, (Rev e).
  - intros (rest & N & Hn & Hsd & Hfit).
    exists {| Index := name; Rev := N |}. split; [|reflexivity].
    apply In_resolve. left. apply In_entries. exists item.
    split; [exact Hin|]. rewrite Hitem.
    apply entry_of_spec. cbn [Index Rev]. split; [reflexivity|].
    now exists rest.
  - intros e rest N He Hi Hn Hsd.
    destruct (Hparsed e He Hi) as (rest' & Hn' & Hsd' & _).
    rewrite Hn in Hn'. apply app_inv_prefix in Hn'. subst rest'.
    exact (SignedDecimal_functional _ _ _ Hsd' Hsd).
Qed.

(** The response of scenario A of the specification. *)
Lemma resolve_entry_iff_numeral_witness :
  let res := map row ["kb-rev3"; "kb-rev1"; "other-index"; "kb-rev2"] in
  In "kb-rev3" (map elastic.Index res)
  /\ (((exists e, In e (@resolve insertionSorter res) /\ Index e = "kb-rev3")
       <-> (exists rest N,
              "kb-rev3" = indexPrefix ++ rest
              /\ SignedDecimal rest N /\ fits_int N))
      /\ (forall e rest N,
            In e (@resolve insertionSorter res) -> Index e = "kb-rev3" ->
            "kb-rev3" = indexPrefix ++ rest -> SignedDecimal rest N ->
            Rev e = N)).
Proof.
  intros res.
  assert (H : In "kb-rev3" (map elastic.Index res)) by (simpl; auto).
  split; [exact H|].
  exact (@resolve_entry_iff_numeral insertionSorter res "kb-rev3" H).
Defined.

(** C2.  The output of the resolver is sorted by revision, newest first:
    each entry has a revision at least that of the entry after it.  This
    holds for every response, in particular when some name parses. *)
Theorem resolve_sorted_descending `{sorter : sort.Sorter}
  (res : elastic.CatIndicesResponse) (i : nat) (a b : DataIndex) :
  nth_error (resolve res) i = Some a ->
  nth_error (resolve res) (S i) = Some b ->
  Rev a >= Rev b.
Proof.
  intros Ha Hb.
  pose proof (IsSorted_nth_error less _ (resolve_IsSorted res) i a b Ha Hb) as H.
  unfold less in H. lia.
Qed.

Lemma resolve_sorted_descending_witness :
  let res := map row ["kb-rev3"; "kb-rev1"; "other-index"; "kb-rev2"] in
  let a := {| Index := "kb-rev2"; Rev := 2 |} in
  let b := {| Index := "kb-rev1"; Rev := 1 |} in
  nth_error (@resolve insertionSorter res) 1 = Some a
  /\ nth_error (@resolve insertionSorter res) 2 = Some b
  /\ Rev a >= Rev b.
Proof.
  intros res a b.
  assert (Ha : nth_error (@resolve insertionSorter res) 1 = Some a)
    by reflexivity.
  assert (Hb : nth_error (@resolve insertionSorter res) 2 = Some b)
    by reflexivity.
  split; [exact Ha|]. split; [exact Hb|].
  exact (@resolve_sorted_descending insertionSorter res 1%nat a b Ha Hb).
Defined.

(** C3.  When no name of the response is the prefix followed by a numeral
    that parses, the resolver returns the one synthetic entry
    [{Index: "kb-rev1", Rev: 1}] and nothing else. *)
Theorem resolve_default_entry `{sorter : sort.Sorter}
  (res : elastic.CatIndicesResponse) :
  (forall item rest N,
     In item res -> elastic.Index item = indexPrefix ++ rest ->
     SignedDecimal rest N -> fits_int N -> False) ->
  resolve res = [{| Index := indexPrefix ++ "1"; Rev := 1 |}].
Proof.
  intros Hnone. apply resolve_empty.
  destruct (entries res) as [|e es] eqn:E; [reflexivity|].
  assert (He : In e (entries res)) by (rewrite E; now left).
  apply In_entries in He as (item & Hin & He).
  apply entry_of_spec in He as (_ & rest & Hn & Hsd & Hfit).
  destruct (Hnone item rest (Rev e) Hin Hn Hsd Hfit).
Qed.

Lemma resolve_default_entry_witness :
  let res := map row ["other-index"; "kb-rev-legacy"] in
  (forall item rest N,
     In item res -> elastic.Index item = indexPrefix ++ rest ->
     SignedDecimal rest N -> fits_int N -> False)
  /\ @resolve insertionSorter res = [{| Index := "kb-rev1"; Rev := 1 |}].
Proof.
  intros res.
  assert (H : forall item rest N,
             In item res -> elastic.Index item = indexPrefix ++ rest ->
             SignedDecimal rest N -> fits_int N -> False).
  { intros item rest N [<-|[<-|[]]] Hn Hsd Hfit.
    - discriminate Hn.
    - injection Hn as <-.
      assert (HA : strconv.Atoi "-legacy" = (N, None))
        by (apply Atoi_spec; auto).
      discriminate HA. }
  split; [exact H|].
  exact (@resolve_default_entry insertionSorter res H).
Defined.

(** C4.  The output of the resolver is never empty, whatever the response:
    empty, without any matching name, or with some. *)
Theorem resolve_never_empty `{sorter : sort.Sorter}
  (res : elastic.CatIndicesResponse) :
  resolve res <> [] /\ (1 <= List.length (resolve res))%nat.
Proof.
  assert (H : resolve res <> []).
  { destruct (entries res) as [|e es] eqn:E.
    - rewrite resolve_empty by exact E. discriminate.
    - rewrite resolve_nonempty by congruence. rewrite E.
      intros H. apply Slice_nil_iff in H. discriminate. }
  split; [exact H|].
  destruct (resolve res); [contradiction|simpl; lia].
Qed.

(** Scenarios A and B of the specification. *)
Example resolve_scenario_A :
  @resolve insertionSorter scenarioA_indices
  = [{| Index := "kb-rev3"; Rev := 3 |};
     {| Index := "kb-rev2"; Rev := 2 |};
     {| Index := "kb-rev1"; Rev := 1 |}].
Proof. reflexivity. Qed.

Example resolve_scenario_B `{sorter : sort.Sorter} :
  resolve [] = [{| Index := "kb-rev1"; Rev := 1 |}].
Proof. now apply resolve_empty. Qed.

(** The bound of [int]: the numeral [2^63] does not fit, [Atoi] reports a
    range error and the name is left out like any name that does not
    parse; [-2^63] fits. *)
Example resolve_int_bounds `{sorter : sort.Sorter} :
  strconv.Atoi "9223372036854775808"
  = (9223372036854775807, Some strconv.ErrRange)
  /\ resolve (map row ["kb-rev9223372036854775808"])
     = [{| Index := "kb-rev1"; Rev := 1 |}]
  /\ In {| Index := "kb-rev-9223372036854775808";
           Rev := -9223372036854775808 |}
        (resolve (map row ["kb-rev-9223372036854775808"])).
Proof.
  split; [reflexivity|]. split.
  - now apply resolve_empty.
  - apply In_resolve. left. simpl. now left.
Qed.

(** C10.  [Atoi] accepts a sign and leading zeros: the names ["kb-rev3"],
    ["kb-rev+3"] and ["kb-rev03"] each yield an entry of revision 3, so one
    output holds several names of the same revision, and ["kb-rev-3"]
    yields an entry of negative revision. *)
Theorem Atoi_sign_and_leading_zeros `{sorter : sort.Sorter} :
  let out := resolve (map row ["kb-rev3"; "kb-rev+3"; "kb-rev03"; "kb-rev-3"]) in
  strconv.Atoi "3" = (3, None)
  /\ strconv.Atoi "+3" = (3, None)
  /\ strconv.Atoi "03" = (3, None)
  /\ strconv.Atoi "-3" = (-3, None)
  /\ In {| Index := "kb-rev3"; Rev := 3 |} out
  /\ In {| Index := "kb-rev+3"; Rev := 3 |} out
  /\ In {| Index := "kb-rev03"; Rev := 3 |} out
  /\ In {| Index := "kb-rev-3"; Rev := -3 |} out.
Proof.
  intros out. subst out.
  repeat (split; [reflexivity|]).
  assert (H : forall e,
    In e [{| Index := "kb-rev3"; Rev := 3 |};
          {| Index := "kb-rev+3"; Rev := 3 |};
          {| Index := "kb-rev03"; Rev := 3 |};
          {| Index := "kb-rev-3"; Rev := -3 |}] ->
    In e (resolve (map row ["kb-rev3"; "kb-rev+3"; "kb-rev03"; "kb-rev-3"]))).
  { intros e He. apply In_resolve. left. exact He. }
  repeat split; apply H; simpl; auto.
Qed.

(** ** The kind aggregator *)

Section Aggregator.

Context `{floats : fmt.Floats}.

(** The [KindCount] of a bucket. *)
Let kind_of (b : elastic.AggregationBucketKeyItem) : DataKind :=
  {| Kind := fmt.Sprintf_v (elastic.Key b); Count := elastic.DocCount b |}.

Lemma aggregate_buckets_map (buckets : list elastic.AggregationBucketKeyItem) :
  forall kinds,
    aggregate_buckets buckets kinds = (kinds ++ map kind_of buckets)%list.
Proof.
  induction buckets as [|b buckets IH]; intros kinds; simpl.
  - now rewrite app_nil_r.
  - rewrite IH, <- app_assoc. reflexivity.
Qed.

End Aggregator.

(** C5.  The aggregator yields one [KindCount] per bucket, in the order of
    the buckets; the count is the [DocCount] of the bucket, unchanged, so a
    count that an [int64] holds is carried whole; the kind is the [%v]
    rendering of the key. *)
Theorem aggregate_one_per_bucket `{floats : fmt.Floats}
  (items : elastic.AggregationBucketKeyItems) :
  aggregate (Some items)
  = map (fun b => {| Kind := fmt.Sprintf_v (elastic.Key b);
                     Count := elastic.DocCount b |})
        (elastic.Buckets items)
  /\ List.length (aggregate (Some items))
     = List.length (elastic.Buckets items)
  /\ (forall i b,
        nth_error (elastic.Buckets items) i = Some b ->
        exists k,
          nth_error (aggregate (Some items)) i = Some k
          /\ Kind k = fmt.Sprintf_v (elastic.Key b)
          /\ Count k = elastic.DocCount b
          /\ (strconv.to_int64 (elastic.DocCount b) = elastic.DocCount b ->
              strconv.to_int64 (Count k) = elastic.DocCount b)).
Proof.
  assert (E : aggregate (Some items)
              = map (fun b => {| Kind := fmt.Sprintf_v (elastic.Key b);
                                 Count := elastic.DocCount b |})
                    (elastic.Buckets items)).
  { unfold aggregate. now rewrite aggregate_buckets_map. }
  split; [exact E|]. split.
  - rewrite E. apply length_map.
  - intros i b Hb. rewrite E.
    eexists. split; [apply map_nth_error; exact Hb|].
    cbn [Kind Count]. auto.
Qed.

(** The example of the specification. *)
Example aggregate_doc_page :
  aggregate (elastic.Terms (elastic.SearchAggregations kinds_result) "kinds")
  = [{| Kind := "doc"; Count := 5 |}; {| Kind := "page"; Count := 2 |}].
Proof. reflexivity. Qed.

(** ** The handler *)

Lemma called_called (w : World) (evs1 evs2 : list event) :
  called (called w evs1) evs2 = called w (evs1 ++ evs2).
Proof. unfold called. cbn. now rewrite app_assoc. Qed.

Lemma emit_called (w : World) (ev : event) :
  emit ev w = (Done tt, called w [ev]).
Proof. reflexivity. Qed.

(** C6.  When the search answers and the aggregation ["kinds"] is absent or
    has no bucket, the aggregator returns the empty sequence and the
    handler goes on to render the view with no kind: no error comes from
    the aggregation. *)
Theorem aggregate_absent_or_empty `{sorter : sort.Sorter}
  `{floats : fmt.Floats} (env : Env) (c : Context) (w : World)
  (res : elastic.CatIndicesResponse) (sr : elastic.SearchResult) :
  CatIndices_Do env = (res, None) ->
  Search_Do env = (Some sr, None) ->
  match elastic.Terms (elastic.SearchAggregations sr) "kinds" with
  | None => True
  | Some items => elastic.Buckets items = []
  end ->
  aggregate (elastic.Terms (elastic.SearchAggregations sr) "kinds") = []
  /\ dashboard env c w
     = c_Render env 200 "index" {| Kinds := []; Indices := resolve res |}
         (called w [CallCatIndices; CallSearch "kb-*" 0 "kinds" "kind" 9999]).
Proof.
  intros Hcat Hsearch Hagg.
  assert (E : aggregate (elastic.Terms (elastic.SearchAggregations sr) "kinds")
              = []).
  { destruct (elastic.Terms _ _) as [items|]; [|reflexivity].
    cbn [aggregate]. now rewrite Hagg. }
  split; [exact E|].
  unfold dashboard, client_CatIndices_Do, client_Search_Do, bind, ret.
  rewrite !emit_called, Hcat, !emit_called, Hsearch, E, called_called.
  reflexivity.
Qed.

(** Scenario C of the specification: the aggregation is absent. *)
Lemma aggregate_absent_or_empty_witness :
  let env := scenario (scenarioA_indices, None) (Some no_aggregation, None) in
  let c := {| Path := "/"; QueryParams := [] |} in
  CatIndices_Do env = (scenarioA_indices, None)
  /\ Search_Do env = (Some no_aggregation, None)
  /\ aggregate
       (elastic.Terms (elastic.SearchAggregations no_aggregation) "kinds") = []
  /\ @dashboard insertionSorter _ env c fresh
     = c_Render env 200 "index"
         {| Kinds := []; Indices := @resolve insertionSorter scenarioA_indices |}
         (called fresh [CallCatIndices; CallSearch "kb-*" 0 "kinds" "kind" 9999]).
Proof.
  intros env c.
  split; [reflexivity|]. split; [reflexivity|].
  exact (@aggregate_absent_or_empty insertionSorter fmt.NoFloats env c fresh
           scenarioA_indices no_aggregation eq_refl eq_refl I).
Defined.

(** At the dashboard root the gate lets every request through. *)
Lemma accessToken_root_open `{floats : fmt.Floats} (env : Env)
  (next : HandlerFunc) (c : Context) :
  Path c = "/" -> accessTokenMiddleware env next c = next c.
Proof.
  intros H. unfold accessTokenMiddleware. rewrite H. reflexivity.
Qed.

(** C7, as the code has it.  A request whose route is not the root ["/"]
    and whose [access_token] differs from the configured token is answered
    [403 invalid access_token] by the gate, and nothing behind the gate
    runs: neither the template loader nor the route, whatever it is. *)
Theorem accessToken_gate_rejects_off_root `{floats : fmt.Floats} (env : Env)
  (route : HandlerFunc) (c : Context) (w : World) :
  Path c <> "/" ->
  QueryParam c "access_token" <> envAccessToken env ->
  serve env route c w
  = (Done None, called w [CallString 403 "invalid access_token"]).
Proof.
  intros Hpath Htoken. unfold serve, accessTokenMiddleware.
  apply String.eqb_neq in Hpath, Htoken. rewrite Hpath, Htoken.
  reflexivity.
Qed.

Lemma accessToken_gate_rejects_off_root_witness :
  let env := scenario (scenarioA_indices, None) (Some kinds_result, None) in
  let c := {| Path := "/api"; QueryParams := [("access_token", "wrong")] |} in
  Path c <> "/"
  /\ QueryParam c "access_token" <> envAccessToken env
  /\ serve env (@dashboard insertionSorter _ env) c fresh
     = (Done None, called fresh [CallString 403 "invalid access_token"]).
Proof.
  intros env c.
  assert (Hp : Path c <> "/") by discriminate.
  assert (Ht : QueryParam c "access_token" <> envAccessToken env)
    by discriminate.
  split; [exact Hp|]. split; [exact Ht|].
  exact (accessToken_gate_rejects_off_root env
           (@dashboard insertionSorter _ env) c fresh Hp Ht).
Defined.

(** C7 fails at the dashboard root: a request for ["/"] with a wrong token
    is not rejected; the indices are listed, the aggregation is run and
    the view is rendered. *)
Lemma accessToken_gate_open_at_root :
  let env := scenario (scenarioA_indices, None) (Some kinds_result, None) in
  let c := {| Path := "/"; QueryParams := [("access_token", "wrong")] |} in
  QueryParam c "access_token" <> envAccessToken env
  /\ serve env (@dashboard insertionSorter _ env) c fresh
     = (Done None,
        {| templates := Some (Templates "views/*.gohtml");
           trace :=
             [CallParseGlob "views/*.gohtml"; CallCatIndices;
              CallSearch "kb-*" 0 "kinds" "kind" 9999;
              CallRender 200 "index"
                {| Kinds := [{| Kind := "doc"; Count := 5 |};
                             {| Kind := "page"; Count := 2 |}];
                   Indices := [{| Index := "kb-rev3"; Rev := 3 |};
                               {| Index := "kb-rev2"; Rev := 2 |};
                               {| Index := "kb-rev1"; Rev := 1 |}] |}] |}).
Proof.
  split; [discriminate | reflexivity].
Qed.

(** C8.  When listing the indices fails, or listing succeeds and the
    aggregation query fails, the handler returns that very error; each call
    was made once and nothing was rendered. *)
Theorem dashboard_propagates_errors `{sorter : sort.Sorter}
  `{floats : fmt.Floats} (env : Env) (c : Context) (w : World) (e : error) :
  snd (CatIndices_Do env) = Some e
  \/ (snd (CatIndices_Do env) = None /\ snd (Search_Do env) = Some e) ->
  dashboard env c w
  = (Done (Some e),
     called w (match snd (CatIndices_Do env) with
               | Some _ => [CallCatIndices]
               | None => [CallCatIndices;
                          CallSearch "kb-*" 0 "kinds" "kind" 9999]
               end)).
Proof.
  intros H.
  unfold dashboard, client_CatIndices_Do, client_Search_Do, bind, ret.
  rewrite !emit_called.
  destruct (CatIndices_Do env) as [res [e1|]]; cbn [snd] in *.
  - destruct H as [[= ->]|[[=] _]]. reflexivity.
  - destruct H as [[=]|[_ H]]. rewrite !emit_called, called_called.
    destruct (Search_Do env) as [sr [e2|]]; cbn [snd] in H; [|discriminate].
    injection H as ->. destruct sr; reflexivity.
Qed.

Lemma dashboard_propagates_errors_witness :
  let env := scenario (scenarioA_indices, None) (None, Some "context deadline exceeded") in
  let c := {| Path := "/"; QueryParams := [] |} in
  (snd (CatIndices_Do env) = Some "context deadline exceeded"
   \/ (snd (CatIndices_Do env) = None
       /\ snd (Search_Do env) = Some "context deadline exceeded"))
  /\ @dashboard insertionSorter _ env c fresh
     = (Done (Some "context deadline exceeded"),
        called fresh [CallCatIndices; CallSearch "kb-*" 0 "kinds" "kind" 9999]).
Proof.
  intros env c.
  assert (H : snd (CatIndices_Do env) = Some "context deadline exceeded"
              \/ (snd (CatIndices_Do env) = None
                  /\ snd (Search_Do env) = Some "context deadline exceeded"))
    by (right; split; reflexivity).
  split; [exact H|].
  exact (@dashboard_propagates_errors insertionSorter fmt.NoFloats env c fresh
           "context deadline exceeded" H).
Defined.

(** * Further properties of the resolver *)

Lemma IsSorted_StronglySorted {A : Type} (lt : A -> A -> bool) (l : list A) :
  sort.StrictWeakOrder lt -> sort.IsSorted lt l ->
  StronglySorted (fun a b => lt b a = false) l.
Proof.
  intros swo Hs. apply Sorted_StronglySorted; [|exact Hs].
  intros a b c Hab Hbc. exact (sort.swo_negtrans lt swo c b a Hbc Hab).
Qed.

Lemma Permutation_entries (res1 res2 : elastic.CatIndicesResponse) :
  Permutation res1 res2 -> Permutation (entries res1) (entries res2).
Proof.
  unfold entries. induction 1 as [|x l l' _ IH|x y l|l l' l'' _ IH1 _ IH2];
    cbn [flat_map].
  - constructor.
  - now apply Permutation_app_head.
  - rewrite !app_assoc. apply Permutation_app_tail, Permutation_app_comm.
  - now transitivity (flat_map
      (fun item => match entry_of (elastic.Index item) with
                   | Some e => [e]
                   | None => []
                   end) l').
Qed.

Lemma entries_app (res1 res2 : elastic.CatIndicesResponse) :
  entries (res1 ++ res2)%list = (entries res1 ++ entries res2)%list.
Proof. unfold entries. apply flat_map_app. Qed.

(** Two sequences of integers that hold the same elements and both
    descend are the same sequence. *)
Lemma descending_unique (l1 l2 : list Z) :
  StronglySorted Z.ge l1 -> StronglySorted Z.ge l2 -> Permutation l1 l2 ->
  l1 = l2.
Proof.
  revert l2. induction l1 as [|a l1 IH]; intros l2 H1 H2 HP.
  - now apply Permutation_nil in HP.
  - destruct l2 as [|b l2].
    + apply Permutation_sym, Permutation_nil in HP. discriminate.
    + apply StronglySorted_inv in H1 as [H1 Ha].
      apply StronglySorted_inv in H2 as [H2 Hb].
      rewrite Forall_forall in Ha, Hb.
      assert (Hab : a = b).
      { assert (Hin_a : In a (b :: l2))
          by (apply (Permutation_in _ HP); now left).
        assert (Hin_b : In b (a :: l1))
          by (apply (Permutation_in _ (Permutation_sym HP)); now left).
        destruct Hin_a as [->|Hin_a]; [reflexivity|].
        destruct Hin_b as [->|Hin_b]; [reflexivity|].
        specialize (Ha _ Hin_b). specialize (Hb _ Hin_a). lia. }
      subst b. f_equal. apply IH; try assumption.
      now apply Permutation_cons_inv in HP.
Qed.

Lemma NoDup_map_In_inj {A B : Type} (f : A -> B) (l : list A) (x y : A) :
  NoDup (map f l) -> In x l -> In y l -> f x = f y -> x = y.
Proof.
  induction l as [|a l IH]; intros Hnd Hx Hy Hf; [contradiction|].
  cbn [map] in Hnd. apply NoDup_cons_iff in Hnd as [Hna Hnd].
  destruct Hx as [->|Hx], Hy as [->|Hy].
  - reflexivity.
  - exfalso. apply Hna. rewrite Hf. now apply in_map.
  - exfalso. apply Hna. rewrite <- Hf. now apply in_map.
  - now apply IH.
Qed.

(** Two sequences of entries that hold the same entries, both newest
    first, with no revision twice, are the same sequence. *)
Lemma newest_first_unique (l1 l2 : list DataIndex) :
  StronglySorted (fun a b => less b a = false) l1 ->
  StronglySorted (fun a b => less b a = false) l2 ->
  Permutation l1 l2 -> NoDup (map Rev l1) -> l1 = l2.
Proof.
  revert l2. induction l1 as [|a l1 IH]; intros l2 H1 H2 HP Hnd.
  - now apply Permutation_nil in HP.
  - destruct l2 as [|b l2].
    + apply Permutation_sym, Permutation_nil in HP. discriminate.
    + assert (Hab : a = b).
      { assert (Hin_a : In a (b :: l2))
          by (apply (Permutation_in _ HP); now left).
        assert (Hin_b : In b (a :: l1))
          by (apply (Permutation_in _ (Permutation_sym HP)); now left).
        apply (NoDup_map_In_inj Rev (a :: l1)); auto; [now left|].
        apply StronglySorted_inv in H1 as [_ Ha].
        apply StronglySorted_inv in H2 as [_ Hb].
        rewrite Forall_forall in Ha, Hb. unfold less in Ha, Hb.
        destruct Hin_a as [->|Hin_a]; [reflexivity|].
        destruct Hin_b as [->|Hin_b]; [reflexivity|].
        specialize (Ha _ Hin_b). specialize (Hb _ Hin_a). lia. }
      subst b. f_equal.
      apply StronglySorted_inv in H1 as [H1 _].
      apply StronglySorted_inv in H2 as [H2 _].
      cbn [map] in Hnd. apply NoDup_cons_iff in Hnd as [_ Hnd].
      apply IH; try assumption.
      now apply Permutation_cons_inv in HP.
Qed.

Section ResolverMore.

Context `{sorter : sort.Sorter}.

Lemma resolve_StronglySorted (res : elastic.CatIndicesResponse) :
  StronglySorted (fun a b => less b a = false) (resolve res).
Proof.
  apply IsSorted_StronglySorted;
    [exact less_StrictWeakOrder | apply resolve_IsSorted].
Qed.

Lemma resolve_Permutation (res : elastic.CatIndicesResponse) :
  entries res <> [] -> Permutation (entries res) (resolve res).
Proof.
  intros H. rewrite resolve_nonempty by exact H.
  apply sort.Slice_Permutation.
Qed.

Lemma resolve_revisions_descend (res : elastic.CatIndicesResponse) :
  StronglySorted Z.ge (map Rev (resolve res)).
Proof.
  pose proof (resolve_StronglySorted res) as H.
  induction H as [|a l Hs IH Ha]; cbn [map]; constructor; [exact IH|].
  rewrite Forall_map. revert Ha. apply Forall_impl.
  intros b Hb. unfold less in Hb. lia.
Qed.

End ResolverMore.

Lemma entry_of_Index (name : string) (e : DataIndex) :
  entry_of name = Some e -> Index e = name.
Proof. intros H. now apply entry_of_spec in H. Qed.

Lemma count_occ_entries (res : elastic.CatIndicesResponse) (name : string) :
  entry_of name <> None ->
  count_occ string_dec (map Index (entries res)) name
  = count_occ string_dec (map elastic.Index res) name.
Proof.
  intros Hname. induction res as [|item res IH]; [reflexivity|].
  cbn [entries flat_map map]. fold (entries res).
  rewrite map_app, count_occ_app, IH.
  destruct (entry_of (elastic.Index item)) as [e|] eqn:He.
  - apply entry_of_Index in He. cbn [map count_occ]. rewrite He.
    destruct (string_dec (elastic.Index item) name); lia.
  - cbn [map count_occ].
    destruct (string_dec (elastic.Index item) name) as [E|]; [|reflexivity].
    rewrite E in He. contradiction.
Qed.

(** X1.  Every entry of the output, the synthetic one included, has an
    [Index] that is the prefix followed by a signed decimal numeral, and
    its [Rev] is the value of that numeral and fits an [int]. *)
Theorem resolve_entries_wellformed `{sorter : sort.Sorter}
  (res : elastic.CatIndicesResponse) (e : DataIndex) :
  In e (resolve res) ->
  exists rest,
    Index e = indexPrefix ++ rest
    /\ SignedDecimal rest (Rev e) /\ fits_int (Rev e).
Proof.
  intros He. apply In_resolve in He as [He|[_ ->]].
  - apply In_entries in He as (item & _ & He).
    apply entry_of_spec in He as (Hi & rest & Hn & Hsd).
    exists rest. rewrite Hi. auto.
  - exists "1". cbn [Index Rev].
    auto using SignedDecimal_one, fits_int_one.
Qed.

Lemma resolve_entries_wellformed_witness :
  let e := {| Index := "kb-rev2"; Rev := 2 |} in
  In e (@resolve insertionSorter scenarioA_indices)
  /\ exists rest,
       Index e = indexPrefix ++ rest
       /\ SignedDecimal rest (Rev e) /\ fits_int (Rev e).
Proof.
  intros e.
  assert (H : In e (@resolve insertionSorter scenarioA_indices))
    by (simpl; auto).
  split; [exact H|].
  exact (@resolve_entries_wellformed insertionSorter scenarioA_indices e H).
Defined.

(** X2.  Nothing is deduplicated or lost: a name of the response that
    parses occurs in the output as many times as it occurs in the
    response. *)
Theorem resolve_keeps_every_occurrence `{sorter : sort.Sorter}
  (res : elastic.CatIndicesResponse) (name rest : string) (N : Z) :
  In name (map elastic.Index res) ->
  name = indexPrefix ++ rest -> SignedDecimal rest N -> fits_int N ->
  count_occ string_dec (map Index (resolve res)) name
  = count_occ string_dec (map elastic.Index res) name.
Proof.
  intros Hin Hn Hsd Hfit.
  assert (He : entry_of name = Some {| Index := name; Rev := N |}).
  { apply entry_of_spec. cbn [Index Rev]. split; [reflexivity|].
    now exists rest. }
  assert (Hne : entries res <> []).
  { apply in_map_iff in Hin as (item & Hitem & Hin).
    assert (H : In {| Index := name; Rev := N |} (entries res)).
    { apply In_entries. exists item. now rewrite Hitem. }
    intros E. now rewrite E in H. }
  rewrite <- count_occ_entries by congruence.
  apply Permutation_count_occ, Permutation_map, Permutation_sym.
  now apply resolve_Permutation.
Qed.

Lemma resolve_keeps_every_occurrence_witness :
  let res := map row ["kb-rev2"; "kb-rev7"; "kb-rev2"] in
  In "kb-rev2" (map elastic.Index res)
  /\ SignedDecimal "2" 2 /\ fits_int 2
  /\ count_occ string_dec (map Index (@resolve insertionSorter res)) "kb-rev2"
     = 2%nat.
Proof.
  intros res.
  assert (Hin : In "kb-rev2" (map elastic.Index res)) by (simpl; auto).
  assert (Hsd : SignedDecimal "2" 2)
    by (apply (SD_unsigned "2"); [discriminate | reflexivity]).
  assert (Hfit : fits_int 2) by (unfold fits_int, minInt, maxInt; lia).
  split; [exact Hin|]. split; [exact Hsd|]. split; [exact Hfit|].
  exact (@resolve_keeps_every_occurrence insertionSorter res "kb-rev2" "2" 2
           Hin eq_refl Hsd Hfit).
Defined.

(** X3.  The first entry of the output is a newest one: no entry has a
    higher revision. *)
Theorem resolve_head_is_newest `{sorter : sort.Sorter}
  (res : elastic.CatIndicesResponse) (first e : DataIndex)
  (others : list DataIndex) :
  resolve res = first :: others -> In e (resolve res) ->
  Rev e <= Rev first.
Proof.
  intros Hres He. pose proof (resolve_StronglySorted res) as Hs.
  rewrite Hres in Hs, He.
  apply StronglySorted_inv in Hs as [_ Hall].
  destruct He as [<-|He]; [lia|].
  rewrite Forall_forall in Hall. specialize (Hall e He).
  unfold less in Hall. lia.
Qed.

Lemma resolve_head_is_newest_witness :
  let first := {| Index := "kb-rev3"; Rev := 3 |} in
  let e := {| Index := "kb-rev1"; Rev := 1 |} in
  let others := [{| Index := "kb-rev2"; Rev := 2 |}; e] in
  @resolve insertionSorter scenarioA_indices = first :: others
  /\ In e (@resolve insertionSorter scenarioA_indices)
  /\ Rev e <= Rev first.
Proof.
  intros first e others.
  assert (H1 : @resolve insertionSorter scenarioA_indices = first :: others)
    by reflexivity.
  assert (H2 : In e (@resolve insertionSorter scenarioA_indices))
    by (simpl; auto).
  split; [exact H1|]. split; [exact H2|].
  exact (@resolve_head_is_newest insertionSorter scenarioA_indices
           first e others H1 H2).
Defined.

(** X4.  The order in which the search engine lists the indices does not
    change the revisions shown: two responses that hold the same rows in
    any order resolve to the same sequence of revisions, and to the same
    entries up to the order of equal revisions. *)
Theorem resolve_revisions_order_independent `{sorter : sort.Sorter}
  (res1 res2 : elastic.CatIndicesResponse) :
  Permutation res1 res2 ->
  map Rev (resolve res1) = map Rev (resolve res2)
  /\ Permutation (resolve res1) (resolve res2).
Proof.
  intros HP. apply Permutation_entries in HP.
  assert (Hperm : Permutation (resolve res1) (resolve res2)).
  { destruct (entries res1) as [|e1 es1] eqn:E1.
    - apply Permutation_nil in HP.
      rewrite (resolve_empty res1 E1), (resolve_empty res2 HP). reflexivity.
    - assert (E2 : entries res2 <> []).
      { intros E. rewrite E in HP.
        apply Permutation_sym, Permutation_nil in HP. discriminate. }
      rewrite <- (resolve_Permutation res2 E2).
      rewrite <- HP, <- E1.
      apply Permutation_sym, resolve_Permutation. congruence. }
  split; [|exact Hperm].
  apply descending_unique; try apply resolve_revisions_descend.
  now apply Permutation_map.
Qed.

Lemma resolve_revisions_order_independent_witness :
  let res1 := map row ["kb-rev3"; "kb-rev1"; "other-index"; "kb-rev03"] in
  let res2 := map row ["kb-rev03"; "other-index"; "kb-rev3"; "kb-rev1"] in
  Permutation res1 res2
  /\ map Rev (@resolve insertionSorter res1)
     = map Rev (@resolve insertionSorter res2)
  /\ Permutation (@resolve insertionSorter res1) (@resolve insertionSorter res2).
Proof.
  intros res1 res2.
  assert (HP : Permutation res1 res2).
  { subst res1 res2. cbn [map].
    apply Permutation_cons_app with (l1 := [row "kb-rev03"; row "other-index"])
                                    (l2 := [row "kb-rev1"]).
    cbn [app].
    apply Permutation_cons_app with (l1 := [row "kb-rev03"; row "other-index"])
                                    (l2 := []).
    cbn [app]. apply perm_swap. }
  split; [exact HP|].
  exact (@resolve_revisions_order_independent insertionSorter res1 res2 HP).
Defined.

(** X5.  A row whose name does not parse has no effect wherever it stands:
    the output is the one of the response without that row. *)
Theorem resolve_ignores_unparsed `{sorter : sort.Sorter}
  (res1 res2 : elastic.CatIndicesResponse)
  (item : elastic.CatIndicesResponseRow) :
  (forall rest N,
     elastic.Index item = indexPrefix ++ rest ->
     SignedDecimal rest N -> fits_int N -> False) ->
  resolve (res1 ++ item :: res2)%list = resolve (res1 ++ res2)%list.
Proof.
  intros Hnone.
  assert (He : entry_of (elastic.Index item) = None).
  { destruct (entry_of (elastic.Index item)) as [e|] eqn:He; [|reflexivity].
    apply entry_of_spec in He as (_ & rest & Hn & Hsd & Hfit).
    destruct (Hnone rest (Rev e) Hn Hsd Hfit). }
  rewrite !resolve_entries, !entries_app.
  cbn [entries flat_map]. rewrite He. reflexivity.
Qed.

Lemma resolve_ignores_unparsed_witness :
  (forall rest N,
     elastic.Index (row "kb-rev-legacy") = indexPrefix ++ rest ->
     SignedDecimal rest N -> fits_int N -> False)
  /\ @resolve insertionSorter
       (map row ["kb-rev1"] ++ row "kb-rev-legacy" :: map row ["kb-rev2"])%list
     = @resolve insertionSorter
         (map row ["kb-rev1"] ++ map row ["kb-rev2"])%list.
Proof.
  assert (H : forall rest N,
             elastic.Index (row "kb-rev-legacy") = indexPrefix ++ rest ->
             SignedDecimal rest N -> fits_int N -> False).
  { intros rest N Hn Hsd Hfit. injection Hn as <-.
    assert (HA : strconv.Atoi "-legacy" = (N, None))
      by (apply Atoi_spec; auto).
    discriminate HA. }
  split; [exact H|].
  exact (@resolve_ignores_unparsed insertionSorter (map row ["kb-rev1"])
           (map row ["kb-rev2"]) (row "kb-rev-legacy") H).
Defined.

(** X6.  When no two entries of the output share a revision, the output is
    strictly descending and does not depend on the sort implementation:
    every [sort.Slice] that meets its contract gives the same sequence. *)
Theorem resolve_distinct_revisions (sorter1 sorter2 : sort.Sorter)
  (res : elastic.CatIndicesResponse) :
  NoDup (map Rev (@resolve sorter1 res)) ->
  @resolve sorter1 res = @resolve sorter2 res
  /\ (forall i a b,
        nth_error (@resolve sorter1 res) i = Some a ->
        nth_error (@resolve sorter1 res) (S i) = Some b ->
        Rev a > Rev b).
Proof.
  intros Hnd. split.
  - apply newest_first_unique;
      try apply resolve_StronglySorted; [|exact Hnd].
    destruct (entries res) as [|e es] eqn:E.
    + now rewrite !resolve_empty by exact E.
    + rewrite <- (@resolve_Permutation sorter1 res) by congruence.
      apply resolve_Permutation. congruence.
  - intros i a b Ha Hb.
    pose proof (IsSorted_nth_error less _ (@resolve_IsSorted sorter1 res)
                  i a b Ha Hb) as Hle.
    unfold less in Hle.
    assert (Hne : Rev a <> Rev b).
    { intros E.
      assert (Hi : (i < List.length (map Rev (@resolve sorter1 res)))%nat).
      { rewrite length_map. apply nth_error_Some. congruence. }
      assert (Hij : i = S i); [|lia].
      apply (proj1 (NoDup_nth_error _) Hnd i (S i) Hi).
      rewrite !nth_error_map, Ha, Hb. cbn. now rewrite E. }
    lia.
Qed.

(** A second sorter that meets the contract of [Slice]: insertion sort
    started from the other end of the slice.  It orders equal elements the
    other way round. *)
Definition reversingSorter : sort.Sorter :=
  {| sort.Slice := fun A less x => sort.insertionSort less (rev x);
     sort.Slice_Permutation :=
       fun A less x =>
         Permutation_trans (Permutation_rev x)
           (insertionSort_from_Permutation less (rev x) []);
     sort.Slice_IsSorted :=
       fun A less x swo =>
         insertionSort_from_IsSorted less swo (rev x) [] (Sorted_nil _) |}.

(** On a tie the two sorters differ, so the hypothesis of X6 is needed. *)
Example resolve_ties_depend_on_sorter :
  @resolve insertionSorter (map row ["kb-rev3"; "kb-rev03"])
  = [{| Index := "kb-rev3"; Rev := 3 |}; {| Index := "kb-rev03"; Rev := 3 |}]
  /\ @resolve reversingSorter (map row ["kb-rev3"; "kb-rev03"])
     = [{| Index := "kb-rev03"; Rev := 3 |}; {| Index := "kb-rev3"; Rev := 3 |}].
Proof. split; reflexivity. Qed.

Lemma resolve_distinct_revisions_witness :
  NoDup (map Rev (@resolve insertionSorter scenarioA_indices))
  /\ @resolve insertionSorter scenarioA_indices
     = @resolve reversingSorter scenarioA_indices
  /\ (forall i a b,
        nth_error (@resolve insertionSorter scenarioA_indices) i = Some a ->
        nth_error (@resolve insertionSorter scenarioA_indices) (S i) = Some b ->
        Rev a > Rev b).
Proof.
  assert (H : NoDup (map Rev (@resolve insertionSorter scenarioA_indices))).
  { change (NoDup [3; 2; 1]).
    repeat (constructor; [simpl; intuition discriminate|]). constructor. }
  split; [exact H|].
  exact (resolve_distinct_revisions insertionSorter reversingSorter
           scenarioA_indices H).
Defined.

(** * Further properties of the aggregator, the handler and the middlewares *)

(** X7.  The table accounts for every document counted: the counts of the
    output add up to the [DocCount]s of the buckets. *)
Theorem aggregate_total_preserved `{floats : fmt.Floats}
  (items : elastic.AggregationBucketKeyItems) :
  fold_right Z.add 0 (map Count (aggregate (Some items)))
  = fold_right Z.add 0 (map elastic.DocCount (elastic.Buckets items)).
Proof.
  unfold aggregate. rewrite aggregate_buckets_map. cbn [app].
  induction (elastic.Buckets items) as [|b bs IH]; [reflexivity|].
  cbn [map fold_right Count]. now rewrite IH.
Qed.

(** What the handler does to the world: it lists the indices first, runs
    the search only after that, renders only after both, and leaves
    [renderer.templates] alone. *)
Lemma dashboard_calls `{sorter : sort.Sorter} `{floats : fmt.Floats}
  (env : Env) (c : Context) (w : World) :
  exists evs,
    snd (dashboard env c w) = called w evs
    /\ (evs = [CallCatIndices]
        \/ evs = [CallCatIndices; CallSearch "kb-*" 0 "kinds" "kind" 9999]
        \/ exists data,
             evs = [CallCatIndices; CallSearch "kb-*" 0 "kinds" "kind" 9999;
                    CallRender 200 "index" data]).
Proof.
  unfold dashboard, client_CatIndices_Do, client_Search_Do, c_Render,
    Renderer_Render, get_templates, bind, ret, panic.
  rewrite !emit_called.
  destruct (CatIndices_Do env) as [res [e1|]].
  - exists [CallCatIndices]. auto.
  - rewrite !emit_called, called_called.
    destruct (Search_Do env) as [[sr|] [e2|]].
    + eexists. split; [reflexivity|]. auto.
    + rewrite !emit_called, called_called. cbn [app].
      eexists. split; [|right; right; eexists; reflexivity].
      cbn [called templates]. destruct (templates w); reflexivity.
    + eexists. split; [reflexivity|]. auto.
    + eexists. split; [reflexivity|]. auto.
Qed.

Lemma parses_app (t1 t2 : list event) :
  parses (t1 ++ t2) = (parses t1 + parses t2)%nat.
Proof. unfold parses. now rewrite filter_app, List.length_app. Qed.

Lemma dashboard_keeps_templates `{sorter : sort.Sorter}
  `{floats : fmt.Floats} (env : Env) (c : Context) (w : World) :
  templates (snd (dashboard env c w)) = templates w
  /\ parses (trace (snd (dashboard env c w))) = parses (trace w).
Proof.
  destruct (dashboard_calls env c w) as (evs & -> & Hevs).
  split; [reflexivity|]. cbn [called trace]. rewrite parses_app.
  destruct Hevs as [->|[->|[data ->]]]; cbn; lia.
Qed.

(** X8.  When both calls succeed, the handler renders the template
    ["index"] once, with status 200 and the view made of the resolved
    indices and the aggregated kinds, after listing the indices and running
    the search in that order; it returns what the template execution
    returns, or [renderer not initialized] when no template is loaded. *)
Theorem dashboard_renders_view `{sorter : sort.Sorter} `{floats : fmt.Floats}
  (env : Env) (c : Context) (w : World)
  (res : elastic.CatIndicesResponse) (sr : elastic.SearchResult) :
  CatIndices_Do env = (res, None) ->
  Search_Do env = (Some sr, None) ->
  let data :=
    {| Kinds := aggregate (elastic.Terms (elastic.SearchAggregations sr) "kinds");
       Indices := resolve res |} in
  dashboard env c w
  = (Done match templates w with
          | None => Some "renderer not initialized"
          | Some t => ExecuteTemplate env t "index" data
          end,
     called w [CallCatIndices; CallSearch "kb-*" 0 "kinds" "kind" 9999;
               CallRender 200 "index" data]).
Proof.
  intros Hcat Hsearch data.
  unfold dashboard, client_CatIndices_Do, client_Search_Do, c_Render,
    Renderer_Render, get_templates, bind, ret.
  rewrite !emit_called, Hcat, !emit_called, Hsearch, !emit_called.
  rewrite !called_called. cbn [app called templates].
  destruct (templates w); reflexivity.
Qed.

Lemma dashboard_renders_view_witness :
  let env := scenario (scenarioA_indices, None) (Some kinds_result, None) in
  let c := {| Path := "/"; QueryParams := [] |} in
  let data :=
    {| Kinds := [{| Kind := "doc"; Count := 5 |};
                 {| Kind := "page"; Count := 2 |}];
       Indices := [{| Index := "kb-rev3"; Rev := 3 |};
                   {| Index := "kb-rev2"; Rev := 2 |};
                   {| Index := "kb-rev1"; Rev := 1 |}] |} in
  CatIndices_Do env = (scenarioA_indices, None)
  /\ Search_Do env = (Some kinds_result, None)
  /\ @dashboard insertionSorter _ env c fresh
     = (Done (Some "renderer not initialized"),
        called fresh [CallCatIndices; CallSearch "kb-*" 0 "kinds" "kind" 9999;
                      CallRender 200 "index" data]).
Proof.
  intros env c data.
  split; [reflexivity|]. split; [reflexivity|].
  exact (@dashboard_renders_view insertionSorter fmt.NoFloats env c fresh
           scenarioA_indices kinds_result eq_refl eq_refl).
Defined.

(** X9.  Whatever the search engine answers, the handler lists the indices
    exactly once and first, searches at most once and only after that,
    renders at most once and only after both, never answers with
    [c.String], and never loads or replaces the templates. *)
Theorem dashboard_effects `{sorter : sort.Sorter} `{floats : fmt.Floats}
  (env : Env) (c : Context) (w : World) :
  let w' := snd (dashboard env c w) in
  templates w' = templates w
  /\ exists evs,
       trace w' = (trace w ++ CallCatIndices :: evs)%list
       /\ (forall code body, ~ In (CallString code body) evs)
       /\ (forall pattern, ~ In (CallParseGlob pattern) evs)
       /\ ~ In CallCatIndices evs
       /\ (evs = []
           \/ evs = [CallSearch "kb-*" 0 "kinds" "kind" 9999]
           \/ exists data,
                evs = [CallSearch "kb-*" 0 "kinds" "kind" 9999;
                       CallRender 200 "index" data]).
Proof.
  intros w'. subst w'.
  destruct (dashboard_calls env c w) as (evs & -> & Hevs).
  split; [reflexivity|]. cbn [called trace].
  destruct Hevs as [->|[->|[data ->]]]; eexists;
    (split; [reflexivity|]);
    repeat split; try (cbn; intuition discriminate); auto.
  right. right. now exists data.
Qed.

Lemma QueryParam_of_absent (q : list (string * string)) (name : string) :
  (forall v, ~ In (name, v) q) -> QueryParam_of q name = "".
Proof.
  induction q as [|[k v] q IH]; intros H; [reflexivity|].
  cbn [QueryParam_of]. destruct (String.eqb_spec k name) as [->|_].
  - exfalso. apply (H v). now left.
  - apply IH. intros v' Hin. apply (H v'). now right.
Qed.

Section Middlewares.

Context `{floats : fmt.Floats}.

Lemma accessToken_passes (env : Env) (next : HandlerFunc) (c : Context) :
  Path c = "/" \/ QueryParam c "access_token" = envAccessToken env ->
  accessTokenMiddleware env next c = next c.
Proof.
  intros H. unfold accessTokenMiddleware.
  destruct H as [-> | ->]; [reflexivity|].
  rewrite String.eqb_refl, andb_false_r. reflexivity.
Qed.

(** The loader parses the templates when none is loaded or in debug mode,
    and hands the request on with what [ParseGlob] returned. *)
Lemma templates_load (env : Env) (next : HandlerFunc) (c : Context)
  (w : World) (t : option Template) :
  templates w = None \/ envDebug env = true ->
  ParseGlob env = (t, None) ->
  templatesMiddleware env next c w
  = next c {| templates := t;
              trace := trace w ++ [CallParseGlob "views/*.gohtml"] |}.
Proof.
  intros Hload Hparse.
  unfold templatesMiddleware, template_Must_ParseGlob, get_templates,
    set_templates, bind, ret, emit.
  assert (E : match templates w with None => true | Some _ => false end
              || envDebug env = true).
  { destruct Hload as [-> | ->]; [reflexivity | apply orb_true_r]. }
  rewrite E, Hparse. reflexivity.
Qed.

(** With templates loaded and debug mode off, the loader does nothing. *)
Lemma templates_keep (env : Env) (next : HandlerFunc) (c : Context)
  (w : World) (t : Template) :
  templates w = Some t -> envDebug env = false ->
  templatesMiddleware env next c w = next c w.
Proof.
  intros Ht Hd.
  unfold templatesMiddleware, get_templates, bind, ret.
  rewrite Ht, Hd. reflexivity.
Qed.

End Middlewares.

(** X10.  The gate lets a request through, to the template loader and the
    route, when it is for the root ["/"] or when its [access_token] is the
    configured token. *)
Theorem accessToken_gate_passes `{floats : fmt.Floats} (env : Env)
  (route : HandlerFunc) (c : Context) :
  Path c = "/" \/ QueryParam c "access_token" = envAccessToken env ->
  serve env route c = templatesMiddleware env route c.
Proof.
  intros H. unfold serve. now apply accessToken_passes.
Qed.

Lemma accessToken_gate_passes_witness :
  let env := scenario (scenarioA_indices, None) (Some kinds_result, None) in
  let c := {| Path := "/api";
              QueryParams := [("page", "2"); ("access_token", "secret")] |} in
  (Path c = "/" \/ QueryParam c "access_token" = envAccessToken env)
  /\ serve env (@dashboard insertionSorter _ env) c
     = templatesMiddleware env (@dashboard insertionSorter _ env) c.
Proof.
  intros env c.
  assert (H : Path c = "/" \/ QueryParam c "access_token" = envAccessToken env)
    by (right; reflexivity).
  split; [exact H|].
  exact (accessToken_gate_passes env (@dashboard insertionSorter _ env) c H).
Defined.

(** X11.  With no token configured (the empty string), a request that
    carries no [access_token] parameter passes the gate on every path: the
    missing parameter reads as the empty string and equals the token. *)
Theorem accessToken_unset_is_open `{floats : fmt.Floats} (env : Env)
  (route : HandlerFunc) (c : Context) :
  envAccessToken env = "" ->
  (forall v, ~ In ("access_token", v) (QueryParams c)) ->
  serve env route c = templatesMiddleware env route c.
Proof.
  intros Htoken Habsent. unfold serve. apply accessToken_passes. right.
  rewrite Htoken. unfold QueryParam. now apply QueryParam_of_absent.
Qed.

Lemma accessToken_unset_is_open_witness :
  let env : @Env fmt.NoFloats :=
    {| envAccessToken := ""; envDebug := false;
       CatIndices_Do := (scenarioA_indices, None);
       Search_Do := (Some kinds_result, None);
       ParseGlob := (Some (Templates "views/*.gohtml"), None);
       ExecuteTemplate := fun _ _ _ => None |} in
  let c := {| Path := "/api"; QueryParams := [("page", "2")] |} in
  envAccessToken env = ""
  /\ (forall v, ~ In ("access_token", v) (QueryParams c))
  /\ serve env (@dashboard insertionSorter _ env) c
     = templatesMiddleware env (@dashboard insertionSorter _ env) c.
Proof.
  intros env c.
  assert (H : forall v, ~ In ("access_token", v) (QueryParams c)).
  { intros v [E|[]]. discriminate E. }
  split; [reflexivity|]. split; [exact H|].
  exact (accessToken_unset_is_open env (@dashboard insertionSorter _ env) c
           eq_refl H).
Defined.

(** X12.  With debug mode off, the templates are parsed on the first
    request and never again: after two requests for the root, starting
    with no template loaded, the templates are the ones of the first
    request and [ParseGlob] was called once. *)
Theorem templates_loaded_once `{sorter : sort.Sorter} `{floats : fmt.Floats}
  (env : Env) (c1 c2 : Context) (w : World) (t : Template) :
  envDebug env = false ->
  ParseGlob env = (Some t, None) ->
  templates w = None ->
  Path c1 = "/" -> Path c2 = "/" ->
  let w1 := snd (serve env (dashboard env) c1 w) in
  let w2 := snd (serve env (dashboard env) c2 w1) in
  templates w1 = Some t /\ templates w2 = Some t
  /\ parses (trace w1) = S (parses (trace w))
  /\ parses (trace w2) = S (parses (trace w)).
Proof.
  intros Hd Hp Hw H1 H2 w1 w2.
  assert (E1 : w1 = snd (dashboard env c1
                 {| templates := Some t;
                    trace := trace w ++ [CallParseGlob "views/*.gohtml"] |})).
  { subst w1. unfold serve. rewrite accessToken_passes by now left.
    now rewrite (templates_load env _ c1 w (Some t)) by auto. }
  destruct (dashboard_keeps_templates env c1
              {| templates := Some t;
                 trace := trace w ++ [CallParseGlob "views/*.gohtml"] |})
    as [Ht1 Hn1].
  rewrite <- E1 in Ht1, Hn1. cbn [templates trace] in Ht1, Hn1.
  rewrite parses_app in Hn1. cbn in Hn1.
  assert (E2 : w2 = snd (dashboard env c2 w1)).
  { subst w2. unfold serve. rewrite accessToken_passes by now left.
    now rewrite (templates_keep env _ c2 w1 t) by auto. }
  destruct (dashboard_keeps_templates env c2 w1) as [Ht2 Hn2].
  rewrite <- E2 in Ht2, Hn2.
  repeat split; try congruence; lia.
Qed.

Lemma templates_loaded_once_witness :
  let env := scenario (scenarioA_indices, None) (Some kinds_result, None) in
  let c := {| Path := "/"; QueryParams := [] |} in
  let w1 := snd (serve env (@dashboard insertionSorter _ env) c fresh) in
  let w2 := snd (serve env (@dashboard insertionSorter _ env) c w1) in
  envDebug env = false
  /\ ParseGlob env = (Some (Templates "views/*.gohtml"), None)
  /\ templates fresh = None
  /\ templates w1 = Some (Templates "views/*.gohtml")
  /\ templates w2 = Some (Templates "views/*.gohtml")
  /\ parses (trace w1) = S (parses (trace fresh))
  /\ parses (trace w2) = S (parses (trace fresh)).
Proof.
  intros env c w1 w2.
  split; [reflexivity|]. split; [reflexivity|]. split; [reflexivity|].
  exact (@templates_loaded_once insertionSorter fmt.NoFloats env c c fresh
           (Templates "views/*.gohtml") eq_refl eq_refl eq_refl
           eq_refl eq_refl).
Defined.

(** X13.  In debug mode every request for the root parses the templates
    again, whether or not some are loaded, and leaves the fresh ones in
    place. *)
Theorem templates_debug_reload `{sorter : sort.Sorter} `{floats : fmt.Floats}
  (env : Env) (c : Context) (w : World) (t : Template) :
  envDebug env = true ->
  ParseGlob env = (Some t, None) ->
  Path c = "/" ->
  let w1 := snd (serve env (dashboard env) c w) in
  templates w1 = Some t /\ parses (trace w1) = S (parses (trace w)).
Proof.
  intros Hd Hp Hc w1.
  assert (E1 : w1 = snd (dashboard env c
                 {| templates := Some t;
                    trace := trace w ++ [CallParseGlob "views/*.gohtml"] |})).
  { subst w1. unfold serve. rewrite accessToken_passes by now left.
    now rewrite (templates_load env _ c w (Some t)) by auto. }
  destruct (dashboard_keeps_templates env c
              {| templates := Some t;
                 trace := trace w ++ [CallParseGlob "views/*.gohtml"] |})
    as [Ht1 Hn1].
  rewrite <- E1 in Ht1, Hn1. cbn [templates trace] in Ht1, Hn1.
  rewrite parses_app in Hn1. cbn in Hn1.
  split; [congruence | lia].
Qed.

Lemma templates_debug_reload_witness :
  let env : @Env fmt.NoFloats :=
    {| envAccessToken := "secret"; envDebug := true;
       CatIndices_Do := (scenarioA_indices, None);
       Search_Do := (Some kinds_result, None);
       ParseGlob := (Some (Templates "edited"), None);
       ExecuteTemplate := fun _ _ _ => None |} in
  let c := {| Path := "/"; QueryParams := [] |} in
  let w := {| templates := Some (Templates "views/*.gohtml");
              trace := [CallParseGlob "views/*.gohtml"] |} in
  let w1 := snd (serve env (@dashboard insertionSorter _ env) c w) in
  envDebug env = true
  /\ ParseGlob env = (Some (Templates "edited"), None)
  /\ templates w1 = Some (Templates "edited")
  /\ parses (trace w1) = S (parses (trace w)).
Proof.
  intros env c w w1.
  split; [reflexivity|]. split; [reflexivity|].
  exact (@templates_debug_reload insertionSorter fmt.NoFloats env c w
           (Templates "edited") eq_refl eq_refl eq_refl).
Defined.

(** X14.  When the templates must be parsed and [ParseGlob] fails, the
    loader panics with that error: the route behind it does not run and
    the templates loaded before, if any, stay in place. *)
Theorem templates_parse_failure_panics `{floats : fmt.Floats} (env : Env)
  (next : HandlerFunc) (c : Context) (w : World) (t : option Template)
  (e : error) :
  templates w = None \/ envDebug env = true ->
  ParseGlob env = (t, Some e) ->
  templatesMiddleware env next c w
  = (Panic e, called w [CallParseGlob "views/*.gohtml"]).
Proof.
  intros Hload Hparse.
  unfold templatesMiddleware, template_Must_ParseGlob, get_templates,
    set_templates, bind, ret, emit, panic.
  assert (E : match templates w with None => true | Some _ => false end
              || envDebug env = true).
  { destruct Hload as [-> | ->]; [reflexivity | apply orb_true_r]. }
  rewrite E, Hparse. reflexivity.
Qed.

Lemma templates_parse_failure_panics_witness :
  let env : @Env fmt.NoFloats :=
    {| envAccessToken := "secret"; envDebug := false;
       CatIndices_Do := (scenarioA_indices, None);
       Search_Do := (Some kinds_result, None);
       ParseGlob := (None, Some "html/template: pattern matches no files");
       ExecuteTemplate := fun _ _ _ => None |} in
  let c := {| Path := "/"; QueryParams := [] |} in
  (templates fresh = None \/ envDebug env = true)
  /\ ParseGlob env = (None, Some "html/template: pattern matches no files")
  /\ templatesMiddleware env (@dashboard insertionSorter _ env) c fresh
     = (Panic "html/template: pattern matches no files",
        called fresh [CallParseGlob "views/*.gohtml"]).
Proof.
  intros env c.
  assert (H : templates fresh = None \/ envDebug env = true)
    by (left; reflexivity).
  split; [exact H|]. split; [reflexivity|].
  exact (templates_parse_failure_panics env (@dashboard insertionSorter _ env)
           c fresh None "html/template: pattern matches no files" H eq_refl).
Defined.

(** X15.  A first request for the root, whatever its [access_token]: the
    templates are parsed, the indices listed, the search run and the view
    rendered with status 200, in that order, and the request returns what
    the execution of the template returns. *)
Theorem serve_root_first_request `{sorter : sort.Sorter} `{floats : fmt.Floats}
  (env : Env) (c : Context) (w : World) (t : Template)
  (res : elastic.CatIndicesResponse) (sr : elastic.SearchResult) :
  Path c = "/" ->
  templates w = None ->
  ParseGlob env = (Some t, None) ->
  CatIndices_Do env = (res, None) ->
  Search_Do env = (Some sr, None) ->
  let data :=
    {| Kinds := aggregate (elastic.Terms (elastic.SearchAggregations sr) "kinds");
       Indices := resolve res |} in
  serve env (dashboard env) c w
  = (Done (ExecuteTemplate env t "index" data),
     {| templates := Some t;
        trace := trace w ++ [CallParseGlob "views/*.gohtml"; CallCatIndices;
                             CallSearch "kb-*" 0 "kinds" "kind" 9999;
                             CallRender 200 "index" data] |}).
Proof.
  intros Hc Hw Hp Hcat Hsearch data.
  unfold serve. rewrite accessToken_passes by now left.
  rewrite (templates_load env _ c w (Some t)) by auto.
  unfold dashboard, client_CatIndices_Do, client_Search_Do, c_Render,
    Renderer_Render, get_templates, bind, ret, emit.
  rewrite Hcat, Hsearch. cbn [templates trace].
  rewrite <- !app_assoc. reflexivity.
Qed.

Lemma serve_root_first_request_witness :
  let env := scenario (scenarioA_indices, None) (Some kinds_result, None) in
  let c := {| Path := "/"; QueryParams := [("access_token", "guess")] |} in
  let data :=
    {| Kinds := [{| Kind := "doc"; Count := 5 |};
                 {| Kind := "page"; Count := 2 |}];
       Indices := [{| Index := "kb-rev3"; Rev := 3 |};
                   {| Index := "kb-rev2"; Rev := 2 |};
                   {| Index := "kb-rev1"; Rev := 1 |}] |} in
  Path c = "/" /\ templates fresh = None
  /\ serve env (@dashboard insertionSorter _ env) c fresh
     = (Done None,
        {| templates := Some (Templates "views/*.gohtml");
           trace := [CallParseGlob "views/*.gohtml"; CallCatIndices;
                     CallSearch "kb-*" 0 "kinds" "kind" 9999;
                     CallRender 200 "index" data] |}).
Proof.
  intros env c data.
  split; [reflexivity|]. split; [reflexivity|].
  exact (@serve_root_first_request insertionSorter fmt.NoFloats env c fresh
           (Templates "views/*.gohtml") scenarioA_indices kinds_result
           eq_refl eq_refl eq_refl eq_refl eq_refl).
Defined.

(** * Properties of [main] and [exit] *)

(** X16.  The client is always dialled with the URL and with sniffing off,
    in that order; basic authentication is added exactly when both the
    user name and the password are non-empty, and then with those two
    values. *)
Theorem clientOptions_basic_auth (s : Settings) :
  (exists more,
     clientOptions s
     = SetURL (envElasticsearchURL s) :: SetSniff false :: more)
  /\ (forall u p,
        In (SetBasicAuth u p) (clientOptions s)
        <-> u = envElasticsearchUsername s /\ p = envElasticsearchPassword s
            /\ envElasticsearchUsername s <> ""
            /\ envElasticsearchPassword s <> "").
Proof.
  unfold clientOptions.
  destruct (String.eqb_spec (envElasticsearchUsername s) "") as [Hu|Hu];
    destruct (String.eqb_spec (envElasticsearchPassword s) "") as [Hp|Hp];
    cbn [negb andb app]; (split; [eexists; reflexivity|]); intros u p;
    cbn [In]; split;
    try (intros [H|[H|[H|[]]]]; try discriminate H; injection H as <- <-; auto);
    try (intros [H|[H|[]]]; discriminate H);
    try (intros (-> & -> & Hu' & Hp'); try contradiction; auto).
Qed.

(** X17.  The process ends with status 1, after logging the error, exactly
    when [err] is set at the end of [main]: by a failed dial, by the server
    returning an error, or by a failed shutdown.  Otherwise it logs
    [exited], never calls [os.Exit] and ends with status 0. *)
Theorem main_exit_status (s : Settings) (dial : option error)
  (sel : selected) :
  match final_error dial sel with
  | Some e =>
      exit_status (main s dial sel) = 1
      /\ In (Println ["exited with error:"; e]) (main s dial sel)
  | None =>
      exit_status (main s dial sel) = 0
      /\ In (Println ["exited"]) (main s dial sel)
      /\ forall code, ~ In (OsExit code) (main s dial sel)
  end.
Proof.
  destruct dial as [e|]; [cbn; auto|].
  destruct sel as [[e|]|sig [e|]]; cbn; repeat split; auto 10;
    intros code H; repeat (destruct H as [H|H]; try discriminate H);
    contradiction.
Qed.

(** X18.  The server is started only after a successful dial, on the
    configured address; [Shutdown] is called only after a signal, and then
    one second after the signal is logged. *)
Theorem main_server_lifecycle (s : Settings) (dial : option error)
  (sel : selected) :
  (forall bind,
     In (GoStart bind) (main s dial sel) <-> dial = None /\ bind = envBind s)
  /\ (In Shutdown (main s dial sel)
      <-> dial = None /\ exists sig shutdown, sel = FromSig sig shutdown)
  /\ (forall sig shutdown,
        dial = None -> sel = FromSig sig shutdown ->
        exists before,
          main s dial sel
          = (before ++ Println ["signal caught:"; sig] :: Sleep 1000000000
                       :: Shutdown :: exit shutdown)%list
          /\ ~ In Shutdown before).
Proof.
  split; [|split].
  - intros bind. destruct dial as [e|].
    + cbn. split.
      * intros H; repeat (destruct H as [H|H]; try discriminate H);
          contradiction.
      * intros [H _]. discriminate H.
    + destruct sel as [[e|]|sig [e|]]; cbn; split;
        try (intros H; repeat (destruct H as [H|H]; try discriminate H);
             [injection H as <-; auto | contradiction]);
        intros [_ ->]; auto.
  - destruct dial as [e|].
    + cbn. split.
      * intros H; repeat (destruct H as [H|H]; try discriminate H);
          contradiction.
      * intros [H _]. discriminate H.
    + destruct sel as [[e|]|sig [e|]]; cbn; split;
        try (intros H; repeat (destruct H as [H|H]; try discriminate H);
             contradiction);
        try (intros [_ (sig' & sh' & H)]; discriminate H);
        try (intros _; split; [reflexivity|]; eexists; eexists; reflexivity);
        auto 10.
  - intros sig shutdown -> ->.
    exists [Dial (clientOptions s); Notify ["SIGTERM"; "SIGINT"];
            GoStart (envBind s)].
    split; [reflexivity|].
    intros H; repeat (destruct H as [H|H]; try discriminate H); contradiction.
Qed.
